(** * shirobot2: event dispatch and command routing core

    A shallow embedding of the Go package [core] (types.go, processor.go,
    engine.go, plugin.go and the command registry) together with the
    properties stated about it.

    Conventions of the embedding.
    - A Go [string] is a byte sequence: Rocq's [string] (a list of 8-bit
      [ascii]).
    - A slice is a [list]; the nil slice and the empty slice are both [[]]
      (the code only ever looks at [len]).
    - A map is a [gmap]; a nil map reads like the empty map.  Where nil-ness
      itself is observable (the [Data] field of a reset [Event]) the field is
      an [option].
    - A pointer to a [Command] is an address into an explicit heap; the zero
      pointer is [None].
    - The [sync.RWMutex] fields guard the maps against concurrent access and
      have no sequential content; the sequential functions below leave them
      out.  The worker pool, whose whole point is concurrency, is modelled
      as an interleaving transition system at the end of the file. *)

From Stdlib Require Import ZArith NArith Ascii String List Permutation Lia.
From stdpp Require Import base option list gmap strings fin_maps.

Local Open Scope string_scope.
Local Open Scope list_scope.

(** ** Values of the Go runtime used by the package *)

(** Addresses of heap objects ([*Command], [*Session]). *)
Definition addr := nat.

(** [interface{}]: a dynamically typed value.  The package only ever tests a
    value for being a [string]; every other dynamic type is kept apart by
    name. *)
Inductive any : Type :=
  | AnyNil
  | AnyString (s : string)
  | AnyInt (z : Z)
  | AnyBool (b : bool)
  | AnyOpaque (dynamic_type : string).

(** [error]: nil, or a value whose [Error()] is the given message. *)
Definition error := option string.

(** The places at which the modelled code can panic. *)
Inductive panic : Type :=
  | PanicTypeAssertion      (* e.Data["text"].(string) on a non-string *)
  | PanicNilDereference     (* field access or method call through a nil pointer *)
  | PanicNilFunc            (* call of a nil CommandHandler *)
  | PanicInHandler (msg : string). (* raised by a handler or a middleware body *)

(** Result of running a piece of code: it returns, it panics, or the fuel
    given to a recursive descent over the heap ran out. *)
Inductive outcome (A : Type) : Type :=
  | Ok (a : A)
  | Panic (p : panic)
  | OutOfFuel.
Arguments Ok {A} a.
Arguments Panic {A} p.
Arguments OutOfFuel {A}.

(** ** Package [strings]: HasPrefix, TrimPrefix, Fields *)

Fixpoint HasPrefix (s prefix : string) : bool :=
  match prefix, s with
  | EmptyString, _ => true
  | String _ _, EmptyString => false
  | String p prefix', String c s' => if Ascii.eqb c p then HasPrefix s' prefix' else false
  end.

Fixpoint dropBytes (n : nat) (s : string) : string :=
  match n, s with
  | O, _ => s
  | S _, EmptyString => EmptyString
  | S n', String _ s' => dropBytes n' s'
  end.

Definition TrimPrefix (s prefix : string) : string :=
  if HasPrefix s prefix then dropBytes (String.length prefix) s else s.

(** [strings.Fields] splits around runs of white space as defined by
    [unicode.IsSpace].  A white-space rune is one of the six ASCII bytes of
    [asciiSpace], or U+0085, U+00A0, U+1680, U+2000..U+200A, U+2028, U+2029,
    U+202F, U+205F, U+3000 in its (unique, shortest) UTF-8 encoding.  The
    lead bytes C2, E1, E2, E3 are never continuation bytes, so matching the
    encodings bytewise agrees with decoding rune by rune. *)
Definition byteAt (s : string) (i : nat) : N :=
  match String.get i s with
  | Some c => N_of_ascii c
  | None => 0%N
  end.

Definition asciiSpace (b : N) : bool :=
  ((b =? 0x09) || (b =? 0x0A) || (b =? 0x0B) || (b =? 0x0C) || (b =? 0x0D) || (b =? 0x20))%N.

(** Width in bytes of the white-space rune at the head of [s]; 0 when the
    head of [s] is not white space. *)
Definition spaceWidth (s : string) : nat :=
  let b0 := byteAt s 0 in
  let b1 := byteAt s 1 in
  let b2 := byteAt s 2 in
  match s with
  | EmptyString => 0
  | String _ _ =>
    if asciiSpace b0 then 1
    else if ((b0 =? 0xC2) && ((b1 =? 0x85) || (b1 =? 0xA0)))%N then 2
    else if ((b0 =? 0xE1) && (b1 =? 0x9A) && (b2 =? 0x80))%N then 3
    else if ((b0 =? 0xE2) && (b1 =? 0x80) &&
             (((0x80 <=? b2) && (b2 <=? 0x8A)) || (b2 =? 0xA8) || (b2 =? 0xA9) || (b2 =? 0xAF)))%N then 3
    else if ((b0 =? 0xE2) && (b1 =? 0x81) && (b2 =? 0x9F))%N then 3
    else if ((b0 =? 0xE3) && (b1 =? 0x80) && (b2 =? 0x80))%N then 3
    else 0
  end.

Definition flushField (cur : string) (fields : list string) : list string :=
  match cur with
  | EmptyString => fields
  | String _ _ => cur :: fields
  end.

(** [skip]: bytes of the current white-space rune still to be passed over;
    [cur]: the field being collected. *)
Fixpoint fieldsFrom (skip : nat) (cur : string) (s : string) : list string :=
  match s with
  | EmptyString => flushField cur []
  | String c s' =>
    match skip with
    | S k => fieldsFrom k cur s'
    | O =>
      match spaceWidth s with
      | O => fieldsFrom 0 (cur ++ String c EmptyString) s'
      | S w => flushField cur (fieldsFrom w EmptyString s')
      end
    end
  end.

Definition Fields (s : string) : list string := fieldsFrom 0 EmptyString s.

(** ** types.go *)

Record Event : Type := mkEvent {
  Event_Type : string;
  Event_Platform : string;
  Event_Data : option (gmap string any);   (* None: the nil map *)
  Event_Session : option addr;             (* None: the nil *Session *)
}.

Record Response : Type := mkResponse {
  Response_Type : string;
  Response_Data : any;
  Response_Metadata : option (gmap string string);
}.

Definition EventTypeMessage := "message".
Definition EventTypeNotice := "notice".
Definition ResponseTypeText := "text".
Definition ResponseTypeError := "error".
Definition ResponseTypeNotHandled := "not_handled".

(** The zero values [Event{}] and [Response{}]. *)
Definition zeroEvent : Event := mkEvent "" "" None None.
Definition zeroResponse : Response := mkResponse "" AnyNil None.

(** [func (e Event) Reset()].  The receiver is passed by value: the four
    assignments act on the method's own copy [e].  [Event_Reset_body] is the
    content of that copy when the method returns. *)
Definition Event_Reset_body (e : Event) : Event :=
  let e := mkEvent "" (Event_Platform e) (Event_Data e) (Event_Session e) in
  let e := mkEvent (Event_Type e) "" (Event_Data e) (Event_Session e) in
  let e := mkEvent (Event_Type e) (Event_Platform e) None (Event_Session e) in
  let e := mkEvent (Event_Type e) (Event_Platform e) (Event_Data e) None in
  e.

(** The method as its caller sees it: it has no result, and the copy it
    worked on is dropped at return. *)
Definition Event_Reset (e : Event) : unit :=
  let _ := Event_Reset_body e in tt.

(** ** engine.go: the event pool *)

(** [sync.Pool] holding [*Event]: the objects currently parked in it. *)
Definition eventPool := list Event.

Definition Pool_Put (p : eventPool) (x : Event) : eventPool := x :: p.

(** [func (e *Engine) recycleEvent(event Event)]: [event] is the local
    variable; [&event] is what goes into the pool. *)
Definition recycleEvent (p : eventPool) (event : Event) : eventPool :=
  let 'tt := Event_Reset event in
  Pool_Put p event.

(** ** processor.go, first part: parsing *)

Definition splitCommand (input : string) : list string :=
  let parts := Fields input in
  if Nat.eqb (length parts) 0 then [] else parts.

Definition ParseCommand (input : string) : list string :=
  if negb (HasPrefix input "/") then []
  else
    let input := TrimPrefix input "/" in
    splitCommand input.

(** ** The logger *)

(** A [*slog.Logger] shared by every component.  A record keeps the level
    and the message of one call; the key/value attributes are left out. *)
Inductive Level : Type := LevelDebug | LevelInfo | LevelError.

Definition LogRecord : Type := Level * string.

Section Routing.

(** Everything a command handler can touch besides the arguments it is
    given: the state of the rest of the program. *)
Context {World : Type}.

(** ** Commands, handlers, middleware *)

(** [Context]: the value handed to a handler.  [Context_ctx] is the
    cancellation token (whether [Done] is closed); [Context_Response] is the
    content, at the time of the call, of the [Response] the context points
    to; [Context_Command] points into the command heap. *)
Record Context : Type := mkContext {
  Context_ctx : bool;
  Context_Event : Event;
  Context_Response : Response;
  Context_Session : option addr;
  Context_Command : option addr;
}.

(** What one call of a handler does: it returns an [error], leaving the
    world and the pointed-to [Response] in some state, or it panics. *)
Inductive hresult : Type :=
  | HReturn (w : World) (resp : Response) (err : error)
  | HPanic (msg : string).

Definition HandlerFn : Type := Context -> list string -> World -> hresult.

(** [type CommandHandler func(ctx Context, args []string) error]; [None] is
    the nil func. *)
Definition CommandHandler : Type := option HandlerFn.

(** [type Middleware func(next CommandHandler) CommandHandler]. *)
Definition Middleware : Type := CommandHandler -> CommandHandler.

Record Command : Type := mkCommand {
  Name : string;
  Parent : option addr;
  fullPath : string;
  Aliases : list string;
  Description : string;
  Usage : string;
  Handler : CommandHandler;
  commands : gmap string addr;
  commandsAliases : gmap string string;
}.

Definition set_Parent (p : option addr) (c : Command) : Command :=
  mkCommand (Name c) p (fullPath c) (Aliases c) (Description c) (Usage c)
            (Handler c) (commands c) (commandsAliases c).
Definition set_fullPath (s : string) (c : Command) : Command :=
  mkCommand (Name c) (Parent c) s (Aliases c) (Description c) (Usage c)
            (Handler c) (commands c) (commandsAliases c).
Definition set_Handler (h : CommandHandler) (c : Command) : Command :=
  mkCommand (Name c) (Parent c) (fullPath c) (Aliases c) (Description c) (Usage c)
            h (commands c) (commandsAliases c).
Definition set_commands (m : gmap string addr) (c : Command) : Command :=
  mkCommand (Name c) (Parent c) (fullPath c) (Aliases c) (Description c) (Usage c)
            (Handler c) m (commandsAliases c).
Definition set_commandsAliases (m : gmap string string) (c : Command) : Command :=
  mkCommand (Name c) (Parent c) (fullPath c) (Aliases c) (Description c) (Usage c)
            (Handler c) (commands c) m.

(** ** Program state and the monad the methods run in *)

(** [heap]: the [Command] objects, by address.  [registry]: the [commands]
    map of the one [CommandRegistry] (the flat name/alias index).  [logs]:
    what the logger has been given so far.  [world]: the rest. *)
Record State : Type := mkState {
  heap : gmap addr Command;
  registry : gmap string addr;
  logs : list LogRecord;
  world : World;
}.

Definition set_heap (h : gmap addr Command) (st : State) : State :=
  mkState h (registry st) (logs st) (world st).
Definition set_registry (r : gmap string addr) (st : State) : State :=
  mkState (heap st) r (logs st) (world st).
Definition set_logs (l : list LogRecord) (st : State) : State :=
  mkState (heap st) (registry st) l (world st).
Definition set_world (w : World) (st : State) : State :=
  mkState (heap st) (registry st) (logs st) w.

Definition M (A : Type) : Type := State -> outcome A * State.

Definition ret {A} (a : A) : M A := fun st => (Ok a, st).

Definition bind {A B} (m : M A) (k : A -> M B) : M B :=
  fun st =>
    match m st with
    | (Ok a, st') => k a st'
    | (Panic p, st') => (Panic p, st')
    | (OutOfFuel, st') => (OutOfFuel, st')
    end.

Definition raise {A} (p : panic) : M A := fun st => (Panic p, st).
Definition exhausted {A} : M A := fun st => (OutOfFuel, st).

Notation "'let!' x ':=' m 'in' k" := (bind m (fun x => k))
  (at level 10, x name, m at level 100, k at level 200).
Notation "m '>>' k" := (bind m (fun _ => k))
  (at level 100, k at level 200, right associativity).

(** Reading and writing through a [*Command]. *)
Definition deref (p : option addr) : M Command :=
  fun st =>
    match p with
    | None => (Panic PanicNilDereference, st)
    | Some a =>
      match heap st !! a with
      | Some c => (Ok c, st)
      | None => (Panic PanicNilDereference, st)
      end
    end.

Definition store (a : addr) (c : Command) : M unit :=
  fun st => (Ok tt, set_heap (<[a := c]> (heap st)) st).

Definition getRegistry : M (gmap string addr) := fun st => (Ok (registry st), st).
Definition putRegistry (r : gmap string addr) : M unit :=
  fun st => (Ok tt, set_registry r st).

Definition logger (lvl : Level) (msg : string) : M unit :=
  fun st => (Ok tt, set_logs (logs st ++ [(lvl, msg)]) st).

(** [for _, x := range l { body }]. *)
Fixpoint forEach {A} (l : list A) (body : A -> M unit) : M unit :=
  match l with
  | [] => ret tt
  | x :: l' => body x >> forEach l' body
  end.

(** ** The command tree *)

(** [func (c *Command) AddCommand(cmds ...*Command)]. *)
Definition Command_AddCommand (c : addr) (cmds : list addr) : M unit :=
  deref (Some c) >>
  forEach cmds (fun cmd =>
    let! x := deref (Some cmd) in
    store cmd (set_Parent (Some c) x) >>
    let! x := deref (Some cmd) in
    let! this := deref (Some c) in
    store c (set_commands (<[Name x := cmd]> (commands this)) this) >>
    forEach (Aliases x) (fun alias =>
      let! x := deref (Some cmd) in
      let! this := deref (Some c) in
      store c (set_commandsAliases (<[alias := Name x]> (commandsAliases this)) this))).

(** [func (c *Command) SetFullPath()].  The recursion follows the pointers
    of the heap, so it is given fuel; on a cyclic structure the Go code does
    not return either.  The children are visited in the order of
    [map_to_list] (Go leaves the order of [range] over a map open). *)
Fixpoint Command_SetFullPath (fuel : nat) (c : addr) : M unit :=
  match fuel with
  | O => exhausted
  | S fuel' =>
    let! this := deref (Some c) in
    (if String.eqb (fullPath this) "" then store c (set_fullPath (Name this) this)
     else ret tt) >>
    forEach (map_to_list (commands this)) (fun '(_, subCmd) =>
      let! this := deref (Some c) in
      let! sub := deref (Some subCmd) in
      store subCmd (set_fullPath (fullPath this ++ " " ++ Name sub) sub) >>
      Command_SetFullPath fuel' subCmd)
  end.

(** [func (c *Command) Find(args []string)], returning a [*Command] and a [[]string].  With no
    arguments left the receiver is returned without being touched, so the
    method may be called on nil. *)
Fixpoint Command_Find (c : option addr) (args : list string)
  : M (option addr * list string) :=
  match args with
  | [] => ret (c, [])
  | arg0 :: rest =>
    let! this := deref c in
    match commands this !! arg0 with
    | Some subCmd => Command_Find (Some subCmd) rest
    | None =>
      match commandsAliases this !! arg0 with
      | Some name => Command_Find (commands this !! name) rest
      | None => ret (c, args)
      end
    end
  end.

(** ** The command registry *)

(** [NewRegistry]: an empty flat index. *)
Definition NewRegistry : gmap string addr := ∅.

(** [func (r *CommandRegistry) registerCommandWithAlias(cmd *Command)]. *)
Definition CommandRegistry_registerCommandWithAlias (cmd : addr) : M unit :=
  let! c := deref (Some cmd) in
  let! r := getRegistry in
  putRegistry (<[Name c := cmd]> r) >>
  forEach (Aliases c) (fun alias =>
    let! r := getRegistry in
    putRegistry (<[alias := cmd]> r)).

(** The loop [for i := len(mws) - 1; i >= 0; i-- { handler = mws[i](handler) }]:
    the last middleware is applied first. *)
Definition applyMiddlewares (mws : list Middleware) (handler : CommandHandler)
  : CommandHandler :=
  foldr (fun mw h => mw h) handler mws.

(** [func (r *CommandRegistry) registerMiddleware(cmd *Command, mws ...Middleware)]. *)
Definition CommandRegistry_registerMiddleware (cmd : addr) (mws : list Middleware)
  : M unit :=
  let! c := deref (Some cmd) in
  let handler := applyMiddlewares mws (Handler c) in
  let! c := deref (Some cmd) in
  store cmd (set_Handler handler c).

(** [func (r *CommandRegistry) Register(cmd *Command, mws ...Middleware) *Command]. *)
Definition CommandRegistry_Register (fuel : nat) (cmd : addr) (mws : list Middleware)
  : M addr :=
  let! c := deref (Some cmd) in
  let! r := getRegistry in
  match r !! Name c with
  | Some existing => ret existing
  | None =>
    Command_SetFullPath fuel cmd >>
    logger LevelDebug "[engine] command registry register command" >>
    logger LevelDebug "[engine] command registry register middleware" >>
    CommandRegistry_registerMiddleware cmd mws >>
    let! c := deref (Some cmd) in
    forEach (map_to_list (commands c)) (fun '(_, subCmd) =>
      CommandRegistry_registerMiddleware subCmd mws) >>
    CommandRegistry_registerCommandWithAlias cmd >>
    logger LevelDebug "[engine] command registry command registered" >>
    ret cmd
  end.

Definition msgFind : string := "[engine] command registry try to find command".

(** [func (r *CommandRegistry) Find(args []string)], returning a [*Command] and a [[]string]. *)
Definition CommandRegistry_Find (args : list string)
  : M (option addr * list string) :=
  logger LevelDebug msgFind >>
  match args with
  | [] => ret (None, [])
  | cmdName :: rest =>
    let! r := getRegistry in
    match r !! cmdName with
    | None => ret (None, args)
    | Some cmd =>
      let! found := Command_Find (Some cmd) rest in
      let '(currentCmd, remaining) := found in
      deref currentCmd >>
      logger LevelDebug "[engine] command registry found command" >>
      ret (currentCmd, remaining)
    end
  end.

(** ** processor.go: the event processor *)

(** [e.Data["text"]]: reading a key of a possibly nil map. *)
Definition dataLookup (e : Event) (key : string) : any :=
  match Event_Data e with
  | None => AnyNil
  | Some m => default AnyNil (m !! key)
  end.

(** [v.(string)]. *)
Definition assertString (v : any) : M string :=
  match v with
  | AnyString s => ret s
  | _ => raise PanicTypeAssertion
  end.

(** [cmd.Handler(c, remainingArgs)]: the call of a func value, run on the
    current world. *)
Definition callHandler (h : CommandHandler) (c : Context) (args : list string)
  : M (Response * error) :=
  fun st =>
    match h with
    | None => (Panic PanicNilFunc, st)
    | Some f =>
      match f c args (world st) with
      | HReturn w resp err => (Ok (resp, err), set_world w st)
      | HPanic msg => (Panic (PanicInHandler msg), st)
      end
    end.

(** [func (ep *EventProcessor) Process(ctx context.Context, e *Event) *Response],
    for a non-nil [e] (the engine passes the address of a local). *)
Definition EventProcessor_Process (ctx : bool) (e : Event) : M Response :=
  logger LevelDebug "[engine] try to parse command" >>
  let! text := assertString (dataLookup e "text") in
  let args := ParseCommand text in
  if Nat.eqb (length args) 0 then
    logger LevelInfo "[engine] not a command, not handled" >>
    ret (mkResponse ResponseTypeNotHandled AnyNil None)
  else
    logger LevelDebug "[engine] parsed command" >>
    let! found := CommandRegistry_Find args in
    let '(cmd, remainingArgs) := found in
    match cmd with
    | None =>
      logger LevelInfo "[engine] command not found" >>
      ret (mkResponse ResponseTypeError (AnyString "command not found") None)
    | Some _ =>
      let c := mkContext ctx e zeroResponse (Event_Session e) cmd in
      let! command := deref cmd in
      let! returned := callHandler (Handler command) c remainingArgs in
      let '(resp, err) := returned in
      match err with
      | Some msg => ret (mkResponse ResponseTypeError (AnyString msg) None)
      | None => ret resp
      end
    end.

(** ** Shape of the command heap *)

(** The commands that can be reached from [a] through [commands] are all in
    the heap and lie at most [depth] levels deep ([a] itself being level 1):
    below [a] the pointers form no cycle. *)
Fixpoint treeWithin (h : gmap addr Command) (depth : nat) (a : addr) : bool :=
  match depth with
  | O => false
  | S depth' =>
    match h !! a with
    | None => false
    | Some c => forallb (fun kv => treeWithin h depth' (snd kv)) (map_to_list (commands c))
    end
  end.

(** A command with its derived path blanked out. *)
Definition erasePath (c : Command) : Command := set_fullPath "" c.

(** Two states that differ at most in the derived paths of their commands. *)
Definition samePaths (st st' : State) : Prop :=
  erasePath <$> heap st = erasePath <$> heap st' /\
  registry st = registry st' /\
  logs st = logs st' /\
  world st = world st'.

(** ** Middlewares of the usual form *)

(** What the part of a middleware that runs before the wrapped handler
    decides: to go on, having changed the world and the response, or to
    return at once with an error without calling [next]. *)
Inductive verdict : Type :=
  | Proceed (w : World) (resp : Response)
  | Abort (w : World) (resp : Response) (err : error).

(** The context with the pointed-to response in a new state. *)
Definition withResponse (resp : Response) (ctx : Context) : Context :=
  mkContext (Context_ctx ctx) (Context_Event ctx) resp
            (Context_Session ctx) (Context_Command ctx).

(** The call [h(ctx, args)] of a handler value on the world [w]. *)
Definition invoke (h : CommandHandler) (ctx : Context) (args : list string) (w : World)
  : hresult :=
  match h with
  | None => HPanic "invalid memory address or nil pointer dereference"
  | Some f => f ctx args w
  end.

(** The middleware
    [func(next) { return func(ctx, args) { if !pre(ctx, args) { return err }; return next(ctx, args) } }]. *)
Definition guard (pre : Context -> list string -> World -> verdict) : Middleware :=
  fun next =>
    Some (fun ctx args w =>
      match pre ctx args w with
      | Abort w' resp err => HReturn w' resp err
      | Proceed w' resp => invoke next (withResponse resp ctx) args w'
      end).

End Routing.

(** ** engine.go: the worker pool *)

(** A task is a [func()] value; the model keeps its identity only. *)
Definition Task := nat.

(** Where one worker goroutine of [Start] stands:
    at [for task := range wp.taskChan]; inside [task()]; past the loop with
    the deferred [wp.wg.Done()] still to run; returned. *)
Inductive Worker : Type :=
  | Receiving
  | Running (t : Task)
  | Leaving
  | Exited.

(** Where the goroutine that owns the pool stands.  It is the goroutine of
    [Engine.Run]: [NewWorkerPool] has returned; [e.workerPool.Start()] has
    returned and the main loop is running; [cleanup] is inside [Stop], past
    [close(wp.taskChan)] and blocked in [wp.wg.Wait()]; [Stop] has
    returned. *)
Inductive Caller : Type :=
  | Created
  | Started
  | Waiting
  | Stopped.

(** [workers], [taskChan] (buffer and closed flag) and [wg] are the fields of
    the Go struct; [goroutines] are the workers spawned so far; [submitted]
    and [completed] record the calls of [Submit] that have returned and the
    calls [task()] that have returned. *)
Record WorkerPool : Type := mkPool {
  workers : nat;
  taskChan : list Task;
  closed : bool;
  wg : nat;
  goroutines : list Worker;
  caller : Caller;
  submitted : list Task;
  completed : list Task;
}.

(** [make(chan func(), 1000)]. *)
Definition taskChanCap : nat := 1000.

Definition NewWorkerPool (n : nat) : WorkerPool :=
  mkPool n [] false 0 [] Created [] [].

(** The atomic actions of the goroutines.  [Submit] is the completed send
    [wp.taskChan <- task]; [Receive i] is worker [i] taking the next task
    off the channel; [Finish i] is the return of its [task()]; [Drained i]
    is worker [i] finding the channel closed and empty, which ends its
    [range] loop; [Done i] is its deferred [wg.Done()]; [StopClose] and
    [StopReturn] are the two statements of [Stop]. *)
Inductive Action : Type :=
  | ActStart
  | ActSubmit (t : Task)
  | ActReceive (i : nat)
  | ActFinish (i : nat)
  | ActDrained (i : nat)
  | ActDone (i : nat)
  | ActStopClose
  | ActStopReturn.

Definition set_worker (i : nat) (w : Worker) (p : WorkerPool) : WorkerPool :=
  mkPool (workers p) (taskChan p) (closed p) (wg p) (<[i := w]> (goroutines p))
         (caller p) (submitted p) (completed p).

(** One action, when it is enabled.  An action that is not enabled is a
    goroutine that blocks (a send on a full channel, a receive on an empty
    open one, [Wait] on a positive counter), a usage error that ends the
    process (a send on a closed channel, a second [close], [Done] on a zero
    counter), or a step out of the order in which [Engine.Run] drives the
    pool ([Start] once, before the loop; [Stop] once, in [cleanup], after
    [Start]).  In all three cases nothing further is observed, hence
    [None].  [Submit] is enabled as long as the channel is open and has
    room, also before [Start]. *)
Definition step (a : Action) (p : WorkerPool) : option WorkerPool :=
  match a with
  | ActStart =>
    match caller p with
    | Created =>
      Some (mkPool (workers p) (taskChan p) (closed p) (wg p + workers p)
                   (replicate (workers p) Receiving) Started
                   (submitted p) (completed p))
    | _ => None
    end
  | ActSubmit t =>
    if closed p then None
    else if Nat.ltb (length (taskChan p)) taskChanCap then
      Some (mkPool (workers p) (taskChan p ++ [t]) (closed p) (wg p)
                   (goroutines p) (caller p) (submitted p ++ [t]) (completed p))
    else None
  | ActReceive i =>
    match goroutines p !! i, taskChan p with
    | Some Receiving, t :: q =>
      Some (mkPool (workers p) q (closed p) (wg p)
                   (<[i := Running t]> (goroutines p)) (caller p)
                   (submitted p) (completed p))
    | _, _ => None
    end
  | ActFinish i =>
    match goroutines p !! i with
    | Some (Running t) =>
      Some (mkPool (workers p) (taskChan p) (closed p) (wg p)
                   (<[i := Receiving]> (goroutines p)) (caller p)
                   (submitted p) (completed p ++ [t]))
    | _ => None
    end
  | ActDrained i =>
    match goroutines p !! i, taskChan p, closed p with
    | Some Receiving, [], true => Some (set_worker i Leaving p)
    | _, _, _ => None
    end
  | ActDone i =>
    match goroutines p !! i, wg p with
    | Some Leaving, S n =>
      Some (mkPool (workers p) (taskChan p) (closed p) n
                   (<[i := Exited]> (goroutines p)) (caller p)
                   (submitted p) (completed p))
    | _, _ => None
    end
  | ActStopClose =>
    match caller p with
    | Started =>
      Some (mkPool (workers p) (taskChan p) true (wg p) (goroutines p) Waiting
                   (submitted p) (completed p))
    | _ => None
    end
  | ActStopReturn =>
    match caller p, wg p with
    | Waiting, O =>
      Some (mkPool (workers p) (taskChan p) (closed p) (wg p) (goroutines p) Stopped
                   (submitted p) (completed p))
    | _, _ => None
    end
  end.

(** A run: a schedule of actions, each enabled when its turn comes. *)
Fixpoint run (schedule : list Action) (p : WorkerPool) : option WorkerPool :=
  match schedule with
  | [] => Some p
  | a :: rest =>
    match step a p with
    | Some p' => run rest p'
    | None => None
    end
  end.

(** The tasks inside a [task()] call right now. *)
Definition running (ws : list Worker) : list Task :=
  omap (fun w => match w with Running t => Some t | _ => None end) ws.

(** Workers whose [wg.Done()] has not run yet. *)
Definition isLive (w : Worker) : bool :=
  match w with Exited => false | _ => true end.
Definition live (ws : list Worker) : nat := length (List.filter isLive ws).

(** Workers past their [range] loop. *)
Definition hasLeft (w : Worker) : bool :=
  match w with Leaving | Exited => true | _ => false end.
Definition anyLeft (ws : list Worker) : bool := existsb hasLeft ws.

(** What holds of a pool of [n] workers at every moment of every run. *)
Definition PoolInv (n : nat) (p : WorkerPool) : Prop :=
  workers p = n /\
  submitted p ≡ₚ completed p ++ running (goroutines p) ++ taskChan p /\
  wg p = live (goroutines p) /\
  (caller p = Created -> goroutines p = []) /\
  (caller p <> Created -> length (goroutines p) = n) /\
  (anyLeft (goroutines p) = true -> closed p = true /\ taskChan p = []) /\
  (caller p = Stopped -> wg p = 0).

(** A run on two workers: three tasks are submitted, then the pool is
    stopped while one task is still waiting in the channel. *)
Definition drainSchedule : list Action :=
  [ActStart; ActSubmit 10; ActSubmit 11; ActReceive 0; ActSubmit 12; ActReceive 1;
   ActFinish 1; ActStopClose; ActReceive 1; ActFinish 0; ActFinish 1;
   ActDrained 0; ActDrained 1; ActDone 1; ActDone 0; ActStopReturn].

(** ** Observations on the log *)

(** Number of calls of [CommandRegistry.Find] so far: the method announces
    itself to the logger before anything else. *)
Definition lookups (l : list LogRecord) : nat :=
  length (List.filter (fun r => String.eqb (snd r) msgFind) l).

(** ** Scenarios *)

(** An event in use: a chat message carrying a command, with a session. *)
Definition usedEvent : Event :=
  mkEvent EventTypeMessage "slack" (Some {[ "text" := AnyString "/ping" ]}) (Some 7).

(** A message event whose text field is [text]. *)
Definition textEvent (text : string) : Event :=
  mkEvent EventTypeMessage "cli" (Some {[ "text" := AnyString text ]}) None.

(** A message event whose text field holds a number. *)
Definition numberEvent : Event :=
  mkEvent EventTypeMessage "cli" (Some {[ "text" := AnyInt 42 ]}) None.

(** A freshly constructed engine: no command objects, an empty registry,
    nothing logged. *)
Definition freshState {World} (w : World) : @State World :=
  mkState ∅ NewRegistry [] w.

(** The scenarios below run handlers whose only effect is to sign a
    journal: the world is the list of the names of the handler and
    middleware bodies that have run, in order. *)
Definition Journal : Type := list string.

(** A handler that signs the journal and answers with its name. *)
Definition say (name : string) : @CommandHandler Journal :=
  Some (fun ctx args w =>
    HReturn (w ++ [name]) (mkResponse ResponseTypeText (AnyString name) None) None).

(** A middleware that signs the journal and calls [next]. *)
Definition pass (name : string) : @Middleware Journal :=
  guard (fun ctx args w => Proceed (w ++ [name]) (Context_Response ctx)).

(** A middleware that signs the journal and returns an error without
    calling [next]. *)
Definition deny (name : string) : @Middleware Journal :=
  guard (fun ctx args w =>
    Abort (w ++ [name]) (Context_Response ctx) (Some "permission denied")).

(** [&Command{Name: name, Aliases: aliases, Handler: handler}]. *)
Definition newCommand {World} (name : string) (aliases : list string)
    (handler : @CommandHandler World) : @Command World :=
  mkCommand name None "" aliases "" "" handler ∅ ∅.

(** Four command objects, not yet attached to anything: [admin] at address
    0, [ban] with alias [b] at 1, [user] at 2 and a second object named
    [admin] at 3. *)
Definition objects : @State Journal :=
  mkState (<[0 := newCommand "admin" [] (say "admin")]>
          (<[1 := newCommand "ban" ["b"] (say "ban")]>
          (<[2 := newCommand "user" [] (say "user")]>
          (<[3 := newCommand "admin" [] (say "admin, again")]> ∅))))
          NewRegistry [] [].

(** [admin.AddCommand(ban)]. *)
Definition adminBan : @State Journal :=
  snd (Command_AddCommand 0 [1] objects).

(** [admin.AddCommand(ban); registry.Register(admin, mws...)]. *)
Definition adminBanRegistered (mws : list (@Middleware Journal)) : @State Journal :=
  snd (CommandRegistry_Register 2 0 mws adminBan).

(** [user.AddCommand(ban); admin.AddCommand(user)]: three levels. *)
Definition adminUserBan : @State Journal :=
  snd (bind (Command_AddCommand 2 [1]) (fun _ => Command_AddCommand 0 [2]) objects).

(** ** Tokens that survive a round trip *)

(** [strings.Join(tokens, " ")]. *)
Definition joinTokens (tokens : list string) : string := String.concat " " tokens.

(** An ASCII byte that is not white space. *)
Definition isPlainByte (c : ascii) : bool :=
  ((N_of_ascii c <? 0x80) && negb (asciiSpace (N_of_ascii c)))%N.

Fixpoint plainString (s : string) : bool :=
  match s with
  | EmptyString => true
  | String c s' => isPlainByte c && plainString s'
  end.

(** A non-empty word of such bytes. *)
Definition plainToken (t : string) : bool :=
  match t with
  | EmptyString => false
  | String _ _ => plainString t
  end.

(** No byte of [s] is one of the six ASCII white-space bytes. *)
Fixpoint noAsciiSpace (s : string) : bool :=
  match s with
  | EmptyString => true
  | String c s' => negb (asciiSpace (N_of_ascii c)) && noAsciiSpace s'
  end.

(** ** Well-formed command heaps *)

Section Shapes.

Context {World : Type}.

(** Every child pointer of every command leads to a command of the heap,
    and every child alias stands for the name of a child. *)
Definition closedHeap (h : gmap addr (@Command World)) : Prop :=
  forall (a : addr) (c : @Command World),
    h !! a = Some c ->
    (forall k s, commands c !! k = Some s -> is_Some (h !! s)) /\
    (forall alias name, commandsAliases c !! alias = Some name ->
                        is_Some (commands c !! name)).

(** The same, as a test that can be run. *)
Definition closedCommand (h : gmap addr (@Command World)) (c : @Command World) : bool :=
  forallb (fun kv => bool_decide (is_Some (h !! snd kv))) (map_to_list (commands c)) &&
  forallb (fun kv => bool_decide (is_Some (commands c !! snd kv)))
          (map_to_list (commandsAliases c)).

Definition closedHeapb (h : gmap addr (@Command World)) : bool :=
  forallb (fun ac => closedCommand h (snd ac)) (map_to_list h).

(** A closed heap whose flat index points into it. *)
Definition wellFormed (st : @State World) : Prop :=
  closedHeap (heap st) /\
  forall k a, registry st !! k = Some a -> is_Some (heap st !! a).

Definition wellFormedb (st : @State World) : bool :=
  closedHeapb (heap st) &&
  forallb (fun ka => bool_decide (is_Some (heap st !! snd ka))) (map_to_list (registry st)).

(** What [SetFullPath] and [registerMiddleware] never touch. *)
Definition skeleton (c : @Command World)
  : string * option addr * list string * gmap string addr * gmap string string :=
  (Name c, Parent c, Aliases c, commands c, commandsAliases c).

(** The aliases of a new child, entered one after the other. *)
Definition withAliases (name : string) (aliases : list string) (m : gmap string string)
  : gmap string string :=
  foldl (fun m alias => <[alias := name]> m) m aliases.

(** Every command has a handler, and no handler panics. *)
Definition handlersReturn (h : gmap addr (@Command World)) : Prop :=
  forall (a : addr) (c : @Command World),
    h !! a = Some c ->
    exists f, Handler c = Some f /\
              forall ctx args w, exists w' resp err, f ctx args w = HReturn w' resp err.

(** The commands of the subtree below [a], [a] first, down to [depth]
    levels; a command that can be reached along two ways is listed twice. *)
Fixpoint nodes (h : gmap addr (@Command World)) (depth : nat) (a : addr) : list addr :=
  match depth with
  | O => []
  | S depth' =>
    match h !! a with
    | None => []
    | Some c => a :: flat_map (fun kv => nodes h depth' (snd kv)) (map_to_list (commands c))
    end
  end.

(** Every command of the subtree below [a] has as its path the path of its
    parent, a blank and its own name. *)
Fixpoint pathsRight (h : gmap addr (@Command World)) (depth : nat) (a : addr) : bool :=
  match depth with
  | O => true
  | S depth' =>
    match h !! a with
    | None => true
    | Some c =>
      forallb (fun kv =>
                 match h !! snd kv with
                 | None => false
                 | Some sub =>
                   String.eqb (fullPath sub) (fullPath c ++ " " ++ Name sub) &&
                   pathsRight h depth' (snd kv)
                 end)
              (map_to_list (commands c))
    end
  end.

End Shapes.

(** Further scenarios. *)

(** One command [ping], registered by hand. *)
Definition served : @State Journal :=
  mkState (<[0 := newCommand "ping" [] (say "pong")]> ∅) {[ "ping" := 0 ]} [] [].

(** [admin] at address 0, registered; [sudo] with the aliases [admin] and
    [su] at address 1, not yet registered. *)
Definition beforeTakeover : @State Journal :=
  snd (CommandRegistry_Register 1 0 []
         (mkState (<[0 := newCommand "admin" [] (say "admin")]>
                  (<[1 := newCommand "sudo" ["admin"; "su"] (say "sudo")]> ∅))
                  NewRegistry [] [])).

(** A command attached below itself: [loop.AddCommand(loop)]. *)
Definition selfChild : @State Journal :=
  snd (Command_AddCommand 0 [0]
         (mkState (<[0 := newCommand "loop" [] (say "loop")]> ∅) NewRegistry [] [])).

(** ** engine.go: processing one event *)

(** A buffered channel: what is in the buffer, how much it holds, whether it
    has been closed. *)
Record Chan (A : Type) : Type := mkChan {
  chan_buf : list A;
  chan_cap : nat;
  chan_closed : bool;
}.
Arguments mkChan {A} _ _ _.
Arguments chan_buf {A} _.
Arguments chan_cap {A} _.
Arguments chan_closed {A} _.

(** [c <- x], seen from the sender when no receiver is waiting: the value
    goes into the buffer, or the sender blocks on a full buffer, or the
    channel is closed and the send panics. *)
Inductive sendResult (A : Type) : Type :=
  | Sent (c : Chan A)
  | SendBlocks
  | SendPanics.
Arguments Sent {A} c.
Arguments SendBlocks {A}.
Arguments SendPanics {A}.

Definition send {A} (c : Chan A) (x : A) : sendResult A :=
  if chan_closed c then SendPanics
  else if Nat.ltb (length (chan_buf c)) (chan_cap c)
       then Sent (mkChan (chan_buf c ++ [x]) (chan_cap c) (chan_closed c))
       else SendBlocks.

(** How a task of the worker pool ends. *)
Inductive taskPanic : Type :=
  | PanicInProcess (p : panic)
  | PanicSendOnClosedChannel.

Inductive taskResult : Type :=
  | TaskReturns
  | TaskPanics (p : taskPanic)
  | TaskBlocks.

Section EngineModel.

Context {World : Type}.

(** What [processEvent] works on: the state behind the processor, the
    response channel and the event pool of the engine. *)
Record EngineState : Type := mkEngineState {
  eng_state : @State World;
  eng_responseChan : Chan Response;
  eng_eventPool : eventPool;
}.

(** [func (e *Engine) processEvent(ctx context.Context, event Event)].  The
    deferred [e.recycleEvent(event)] has its argument evaluated at the
    [defer] statement and runs when the function returns or panics; it does
    not run while the send is blocked. *)
Definition processEvent (ctx : bool) (event : Event) (es : EngineState)
  : taskResult * EngineState :=
  let deferred := recycleEvent (eng_eventPool es) event in
  match EventProcessor_Process ctx event (eng_state es) with
  | (Ok resp, st') =>
    if negb (String.eqb (Response_Type resp) "") then
      match send (eng_responseChan es) resp with
      | Sent c' => (TaskReturns, mkEngineState st' c' deferred)
      | SendBlocks => (TaskBlocks, mkEngineState st' (eng_responseChan es) (eng_eventPool es))
      | SendPanics =>
        (TaskPanics PanicSendOnClosedChannel,
         mkEngineState st' (eng_responseChan es) deferred)
      end
    else (TaskReturns, mkEngineState st' (eng_responseChan es) deferred)
  | (Panic p, st') =>
    (TaskPanics (PanicInProcess p), mkEngineState st' (eng_responseChan es) deferred)
  | (OutOfFuel, st') =>
    (TaskBlocks, mkEngineState st' (eng_responseChan es) (eng_eventPool es))
  end.

(** ** plugin.go *)

(** A plugin: its name, and what its [RegisterCommand(registry, mws...)]
    does to the registry and the commands.  [Name()] is taken to answer the
    same string every time. *)
Record Plugin : Type := mkPlugin {
  Plugin_Name : string;
  Plugin_RegisterCommand : list (@Middleware World) -> @M World unit;
}.

(** The [PluginManager]: its [plugins] map, and the state reached through
    its [registry] and [logger]. *)
Record PluginManager : Type := mkPluginManager {
  plugins : gmap string Plugin;
  pm_state : @State World;
}.

(** [NewPluginManager]. *)
Definition NewPluginManager (w : World) : PluginManager :=
  mkPluginManager ∅ (mkState ∅ NewRegistry [] w).

(** [func (pm *PluginManager) Register(plugin Plugin, mws ...Middleware)]. *)
Definition PluginManager_Register (plugin : Plugin) (mws : list (@Middleware World))
    (pm : PluginManager) : outcome unit * PluginManager :=
  match plugins pm !! Plugin_Name plugin with
  | Some _ => (Ok tt, pm)
  | None =>
    let '(_, st1) := logger LevelDebug "[plugin] registering plugin" (pm_state pm) in
    let registered := <[Plugin_Name plugin := plugin]> (plugins pm) in
    let '(result, st2) := Plugin_RegisterCommand plugin mws st1 in
    (result, mkPluginManager registered st2)
  end.

(** [func (e *Engine) RegisterPlugin(plugin Plugin, mws ...Middleware)],
    called once for every element of a list; a panic ends the sequence. *)
Fixpoint Engine_RegisterPlugins (calls : list (Plugin * list (@Middleware World)))
    (pm : PluginManager) : outcome unit * PluginManager :=
  match calls with
  | [] => (Ok tt, pm)
  | (plugin, mws) :: rest =>
    match PluginManager_Register plugin mws pm with
    | (Ok _, pm') => Engine_RegisterPlugins rest pm'
    | (failed, pm') => (failed, pm')
    end
  end.

(** The calls that find their plugin name free: [seen] are the names taken
    so far. *)
Fixpoint effectiveCalls (seen : gset string)
    (calls : list (Plugin * list (@Middleware World)))
  : list (Plugin * list (@Middleware World)) :=
  match calls with
  | [] => []
  | (plugin, mws) :: rest =>
    if decide (Plugin_Name plugin ∈ seen) then effectiveCalls seen rest
    else (plugin, mws) :: effectiveCalls ({[Plugin_Name plugin]} ∪ seen) rest
  end.

End EngineModel.

(** ** engine.go: construction *)

(** [EngineConfig]; the sizes are Go [int]s.  A logger is known by a number;
    [None] is the nil [*slog.Logger]. *)
Record EngineConfig : Type := mkEngineConfig {
  Logger : option nat;
  EventChanSize : Z;
  ResponseChanSize : Z;
  WorkerPoolSize : Z;
}.

(** [type EngineOption]: a func taking a pointer to the [EngineConfig];
    modelled by what the call does to the configuration it is given. *)
Definition EngineOption : Type := EngineConfig -> EngineConfig.

Definition WithLogger (logger : option nat) : EngineOption :=
  fun e => mkEngineConfig logger (EventChanSize e) (ResponseChanSize e) (WorkerPoolSize e).
Definition WithEventChanSize (size : Z) : EngineOption :=
  fun e => mkEngineConfig (Logger e) size (ResponseChanSize e) (WorkerPoolSize e).
Definition WithResponseChanSize (size : Z) : EngineOption :=
  fun e => mkEngineConfig (Logger e) (EventChanSize e) size (WorkerPoolSize e).
Definition WithWorkerPoolSize (size : Z) : EngineOption :=
  fun e => mkEngineConfig (Logger e) (EventChanSize e) (ResponseChanSize e) size.

(** [slog.Default()]. *)
Definition defaultLogger : nat := 0.

Definition defaultConfig : EngineConfig :=
  mkEngineConfig (Some defaultLogger) 1000 1000 100.

(** The engine as [NewEngine] leaves it: its logger, the capacities of its
    two channels, the size handed to [NewWorkerPool]; its managers are
    empty. *)
Record Engine : Type := mkEngine {
  Engine_logger : nat;
  Engine_eventChanCap : nat;
  Engine_responseChanCap : nat;
  Engine_workerPoolSize : Z;
}.

(** The package variables [_Engine] and [once] ([true]: [once.Do] has been
    entered before). *)
Record Globals : Type := mkGlobals {
  _Engine : option Engine;
  once : bool;
}.

Definition initialGlobals : Globals := mkGlobals None false.

(** The body handed to [once.Do]: the options are applied in order; [make]
    panics on a negative size; the closing [e.logger.Debug] panics on a nil
    logger; only then is [_Engine] assigned. *)
Definition buildEngine (opts : list EngineOption) : option Engine :=
  let ecfg := fold_left (fun c (opt : EngineOption) => opt c) opts defaultConfig in
  if (EventChanSize ecfg <? 0)%Z || (ResponseChanSize ecfg <? 0)%Z then None
  else
    match Logger ecfg with
    | None => None
    | Some logger =>
      Some (mkEngine logger (Z.to_nat (EventChanSize ecfg))
                     (Z.to_nat (ResponseChanSize ecfg)) (WorkerPoolSize ecfg))
    end.

(** [func NewEngine(opts ...EngineOption) *Engine]: [None] as outcome is a
    panic out of [once.Do], which counts the call as done all the same;
    otherwise the value of [_Engine] is returned, which may be nil. *)
Definition NewEngine (opts : list EngineOption) (g : Globals)
  : option (option Engine) * Globals :=
  if once g then (Some (_Engine g), g)
  else
    match buildEngine opts with
    | Some e => (Some (Some e), mkGlobals (Some e) true)
    | None => (None, mkGlobals (_Engine g) true)
    end.

(** [func GetEngine() *Engine]. *)
Definition GetEngine (g : Globals) : option Engine := _Engine g.

(** ** More on the worker pool *)

(** What holds of the task channel at every moment of every run: it never
    holds more than its capacity, its content is the tail of the sequence of
    submissions, and it is closed exactly from the first statement of [Stop]
    on. *)
Definition ChanInv (p : WorkerPool) : Prop :=
  length (taskChan p) <= taskChanCap /\
  (exists taken, submitted p = taken ++ taskChan p) /\
  (closed p = true <-> caller p = Waiting \/ caller p = Stopped).

(** How many actions a worker still has to take before it has exited, when
    it finds nothing more to do. *)
Definition workerWeight (w : Worker) : nat :=
  match w with
  | Running _ => 3
  | Receiving => 2
  | Leaving => 1
  | Exited => 0
  end.

(** How many actions of the workers a closed pool is away from all workers
    having exited. *)
Definition workLeft (p : WorkerPool) : nat :=
  2 * length (taskChan p) + list_sum (map workerWeight (goroutines p)).

(** * Properties *)

(** ** Parsing *)

Example ParseCommand_tokens :
  ParseCommand "/admin b  userX" = ["admin"; "b"; "userX"].
Proof. reflexivity. Qed.

Example ParseCommand_no_prefix : ParseCommand "hello /admin" = [].
Proof. reflexivity. Qed.

Example ParseCommand_only_prefix : ParseCommand "/" = [].
Proof. reflexivity. Qed.

(** A no-break space (U+00A0, bytes C2 A0) separates fields; a zero-width
    space (U+200B, bytes E2 80 8B) does not. *)
Example Fields_unicode_space :
  Fields ("a" ++ String (ascii_of_nat 194) (String (ascii_of_nat 160) "b")) = ["a"; "b"] /\
  length (Fields ("a" ++ String (ascii_of_nat 226) (String (ascii_of_nat 128)
                                (String (ascii_of_nat 139) "b")))) = 1.
Proof. split; reflexivity. Qed.

(** ** The event pool *)

Lemma Event_Reset_body_zero (e : Event) : Event_Reset_body e = zeroEvent.
Proof. reflexivity. Qed.

Lemma recycleEvent_keeps_contents (p : eventPool) (e : Event) :
  recycleEvent p e = e :: p.
Proof. reflexivity. Qed.

(** C1 (fails on the code).  The event that [recycleEvent] parks in the pool
    is the event as it was handed in: [Reset] has a value receiver, so it
    clears a copy.  For the event [usedEvent] the pooled object still has its
    type, platform, data and session. *)
Theorem recycleEvent_pools_unreset_event :
  exists pooled,
    recycleEvent [] usedEvent = [pooled] /\
    Event_Type pooled = "message" /\
    Event_Platform pooled = "slack" /\
    dataLookup pooled "text" = AnyString "/ping" /\
    Event_Session pooled = Some 7 /\
    pooled <> zeroEvent.
Proof.
  exists usedEvent. rewrite recycleEvent_keeps_contents.
  repeat split; try reflexivity. discriminate.
Qed.

(** ** Command lookup *)

Section RoutingProperties.

Context {World : Type}.
Implicit Types (st : @State World) (c cA cB : @Command World).
Implicit Types (h : gmap addr (@Command World)) (mws : list (@Middleware World)).

Lemma bind_Ok {A B} (m : @M World A) (k : A -> M B) st a st' :
  m st = (Ok a, st') -> bind m k st = k a st'.
Proof. intros H. unfold bind. now rewrite H. Qed.

Lemma deref_Some st a c :
  heap st !! a = Some c -> deref (Some a) st = (Ok c, st).
Proof. intros H. unfold deref. now rewrite H. Qed.

(** [Command.Find] only reads: it neither logs nor writes to the heap, and
    the only way it fails is a nil dereference. *)
Lemma Command_Find_reads (args : list string) :
  forall (p : option addr) st,
    snd (Command_Find p args st) = st /\
    ((exists r, fst (Command_Find p args st) = Ok r) \/
     fst (Command_Find p args st) = Panic PanicNilDereference).
Proof.
  induction args as [|arg0 rest IH]; intros p st; simpl.
  - split; [reflexivity|]. left. eexists. reflexivity.
  - unfold bind, deref.
    destruct p as [a|]; [|split; [reflexivity|now right]].
    destruct (heap st !! a) as [this|]; [|split; [reflexivity|now right]].
    destruct (commands this !! arg0) as [subCmd|]; [apply IH|].
    destruct (commandsAliases this !! arg0) as [name|]; [apply IH|].
    split; [reflexivity|]. left. eexists. reflexivity.
Qed.

Lemma Command_Find_state (args : list string) (p : option addr) st :
  Command_Find p args st = (fst (Command_Find p args st), st).
Proof.
  pose proof (Command_Find_reads args p st) as [H _].
  destruct (Command_Find p args st); simpl in *. now subst.
Qed.

(** Every call of [CommandRegistry.Find] leaves its mark in the log. *)
Lemma lookups_app (l1 l2 : list LogRecord) :
  lookups (l1 ++ l2) = lookups l1 + lookups l2.
Proof. unfold lookups. now rewrite List.filter_app, length_app. Qed.

Ltac count_lookups :=
  rewrite ?lookups_app; unfold lookups, msgFind; simpl; lia.

Lemma CommandRegistry_Find_counts (args : list string) st :
  lookups (logs (snd (CommandRegistry_Find args st))) = S (lookups (logs st)).
Proof.
  unfold CommandRegistry_Find, bind, logger, getRegistry, ret. simpl.
  destruct args as [|cmdName rest]; simpl; [count_lookups|].
  destruct (registry st !! cmdName) as [cmd|]; simpl; [|count_lookups].
  rewrite Command_Find_state.
  destruct (fst (Command_Find _ _ _)) as [[currentCmd remaining]| |]; simpl;
    try count_lookups.
  unfold deref. simpl.
  destruct currentCmd as [a|]; simpl; try count_lookups.
  destruct (heap st !! a); simpl; count_lookups.
Qed.

(** When the registry method returns a nil command on a non-empty token
    list, the first token is in the flat index under no name and no alias. *)
Lemma CommandRegistry_Find_nil (cmdName : string) (rest remaining : list string) st :
  fst (CommandRegistry_Find (cmdName :: rest) st) = Ok (None, remaining) ->
  registry st !! cmdName = None.
Proof.
  unfold CommandRegistry_Find, bind, logger, getRegistry, ret. simpl.
  destruct (registry st !! cmdName) as [cmd|]; [|reflexivity].
  rewrite Command_Find_state.
  destruct (fst (Command_Find _ _ _)) as [[currentCmd rem]| |]; simpl; try discriminate.
  unfold deref. simpl.
  destruct currentCmd as [a|]; simpl; try discriminate.
  destruct (heap st !! a); simpl; discriminate.
Qed.

(** A first token that is in the flat index under no name and no alias:
    the method logs its line and hands the whole argument list back. *)
Lemma CommandRegistry_Find_unregistered (cmdName : string) (rest : list string) st :
  registry st !! cmdName = None ->
  CommandRegistry_Find (cmdName :: rest) st =
    (Ok (None, cmdName :: rest), set_logs (logs st ++ [(LevelDebug, msgFind)]) st).
Proof.
  intros H. unfold CommandRegistry_Find, bind, logger, getRegistry, ret.
  simpl. now rewrite H.
Qed.

(** C2 (as the code has it).  [Find] returns a nil command together with
    the argument list it was given, when that list is empty (so the second
    result is nil as well) and when the first token is in the flat index
    under no name and no alias (so the second result is the whole, non-empty
    list).  Nothing but the log changes. *)
Theorem CommandRegistry_Find_no_match (args : list string) st :
  match args with
  | [] => True
  | cmdName :: _ => registry st !! cmdName = None
  end ->
  CommandRegistry_Find args st =
    (Ok (None, args), set_logs (logs st ++ [(LevelDebug, msgFind)]) st).
Proof.
  intros H. destruct args as [|cmdName rest]; [reflexivity|].
  now apply CommandRegistry_Find_unregistered.
Qed.

(** C5.  When the flat index already has an entry under the name of the
    command handed to [Register], the call returns that entry and changes
    nothing: the heap of commands, the registry, the log and the world are
    what they were; the middlewares are not applied and no fuel is used. *)
Theorem CommandRegistry_Register_idempotent
    (fuel : nat) (cmd existing : addr) (mws : list Middleware) c st :
  heap st !! cmd = Some c ->
  registry st !! Name c = Some existing ->
  CommandRegistry_Register fuel cmd mws st = (Ok existing, st).
Proof.
  intros Hc Hr. unfold CommandRegistry_Register.
  rewrite (bind_Ok _ _ _ _ _ (deref_Some _ _ _ Hc)).
  unfold bind, getRegistry. now rewrite Hr.
Qed.

(** ** The event processor *)

(** C6.  When the text of the event does not start with the prefix, or
    nothing but white space follows the prefix, [Process] returns the
    [not_handled] response, logs its two lines and does nothing else: in
    particular no [Find] is recorded. *)
Theorem EventProcessor_Process_not_handled (ctx : bool) (e : Event) (text : string) st :
  dataLookup e "text" = AnyString text ->
  HasPrefix text "/" = false \/ Fields (TrimPrefix text "/") = [] ->
  let st' := set_logs (logs st ++ [(LevelDebug, "[engine] try to parse command");
                                   (LevelInfo, "[engine] not a command, not handled")]) st in
  EventProcessor_Process ctx e st = (Ok (mkResponse "not_handled" AnyNil None), st') /\
  lookups (logs st') = lookups (logs st).
Proof.
  intros Htext Hcase. simpl. split.
  - unfold EventProcessor_Process, bind, logger, assertString, ret. simpl.
    rewrite Htext. simpl.
    assert (ParseCommand text = []) as ->.
    { unfold ParseCommand, splitCommand.
      destruct Hcase as [Hp|Hf]; [now rewrite Hp|].
      rewrite Hf. simpl. now destruct (HasPrefix text "/"). }
    simpl. unfold set_logs. simpl. now rewrite <- app_assoc.
  - count_lookups.
Qed.

(** C7.  When the tokens of the event are not empty and [Find] reports no
    command for them, [Process] returns, with the [error] response carrying
    [command not found]; it does not panic. *)
Theorem EventProcessor_Process_command_not_found
    (ctx : bool) (e : Event) (text : string) (remaining : list string) st :
  dataLookup e "text" = AnyString text ->
  ParseCommand text <> [] ->
  fst (CommandRegistry_Find (ParseCommand text) st) = Ok (None, remaining) ->
  EventProcessor_Process ctx e st =
    (Ok (mkResponse "error" (AnyString "command not found") None),
     set_logs (logs st ++ [(LevelDebug, "[engine] try to parse command");
                           (LevelDebug, "[engine] parsed command");
                           (LevelDebug, msgFind);
                           (LevelInfo, "[engine] command not found")]) st).
Proof.
  intros Htext Hargs Hfind.
  destruct (ParseCommand text) as [|cmdName rest] eqn:Hparse; [congruence|].
  pose proof (CommandRegistry_Find_nil _ _ _ _ Hfind) as Hnone.
  unfold EventProcessor_Process.
  unfold bind at 1. unfold logger at 1.
  unfold bind at 1. rewrite Htext. unfold assertString, ret at 1.
  rewrite Hparse. cbn [length Nat.eqb].
  unfold bind at 1. unfold logger at 1.
  unfold bind at 1.
  rewrite CommandRegistry_Find_unregistered by exact Hnone.
  unfold bind, logger, ret, set_logs. simpl.
  now rewrite <- !app_assoc.
Qed.

Lemma CommandRegistry_Find_panics (args : list string) (p : panic) st :
  fst (CommandRegistry_Find args st) = Panic p -> p = PanicNilDereference.
Proof.
  unfold CommandRegistry_Find, bind, logger, getRegistry, ret. simpl.
  destruct args as [|cmdName rest]; simpl; [discriminate|].
  destruct (registry st !! cmdName) as [cmd|]; simpl; [|discriminate].
  rewrite Command_Find_state.
  match goal with |- context [Command_Find ?q ?a ?s] =>
    destruct (Command_Find_reads a q s) as [_ [[r Hr]|Hr]]; rewrite Hr end.
  - destruct r as [currentCmd remaining]. unfold deref. simpl.
    destruct currentCmd as [a|]; simpl; [|congruence].
    destruct (heap st !! a); simpl; congruence.
  - simpl. congruence.
Qed.

(** C10.  [Process] panics on the type assertion exactly when the [text]
    entry of the event's data is not a string: the key is missing, the map is
    nil, or the value has another dynamic type.  With a string under [text]
    that panic cannot occur. *)
Theorem EventProcessor_Process_text_assertion (ctx : bool) (e : Event) st :
  fst (EventProcessor_Process ctx e st) = Panic PanicTypeAssertion <->
  (forall s, dataLookup e "text" <> AnyString s).
Proof.
  split.
  - intros Hrun text Htext. revert Hrun.
    unfold EventProcessor_Process.
    unfold bind at 1. unfold logger at 1.
    unfold bind at 1. rewrite Htext. unfold assertString, ret at 1.
    destruct (Nat.eqb (length (ParseCommand text)) 0) eqn:Hlen; [discriminate|].
    unfold bind at 1. unfold logger at 1.
    unfold bind at 1.
    match goal with |- context [CommandRegistry_Find ?a ?s] =>
      pose proof (CommandRegistry_Find_panics a) as Hp;
      destruct (CommandRegistry_Find a s) as [[[cmd remainingArgs]|q|] st1] eqn:HF end;
      [| specialize (Hp q _ (f_equal fst HF)); simpl; congruence | discriminate].
    destruct cmd as [a|]; [|discriminate].
    unfold bind, deref, callHandler, ret.
    destruct (heap st1 !! a) as [command|]; [|discriminate].
    destruct (Handler command) as [f|]; [|discriminate].
    destruct (f _ _ _) as [w resp [msg|]|msg]; discriminate.
  - intros Hno. unfold EventProcessor_Process, bind, logger, assertString, raise. simpl.
    destruct (dataLookup e "text") as [| s | | |]; try reflexivity.
    now destruct (Hno s).
Qed.

(** C8.  Resolution goes down through an alias: when the root is in the
    flat index, the second token is an alias (and not the name) of one of its
    children, and the third token is neither a name nor an alias below that
    child, [Find] returns the child and leaves the third token as the only
    remaining argument.  With [root = admin], [name = ban], [alias = b] and
    [arg = userX] this is the scenario of the specification. *)
Theorem CommandRegistry_Find_through_alias
    (root name alias arg : string) (admin ban : addr) cA cB st :
  registry st !! root = Some admin ->
  heap st !! admin = Some cA ->
  commands cA !! alias = None ->
  commandsAliases cA !! alias = Some name ->
  commands cA !! name = Some ban ->
  heap st !! ban = Some cB ->
  commands cB !! arg = None ->
  commandsAliases cB !! arg = None ->
  CommandRegistry_Find [root; alias; arg] st =
    (Ok (Some ban, [arg]),
     set_logs (logs st ++ [(LevelDebug, msgFind);
                           (LevelDebug, "[engine] command registry found command")]) st).
Proof.
  intros Hroot HA Hnoname Halias Hname HB Hnosub Hnoalias.
  unfold CommandRegistry_Find, bind, logger, getRegistry, ret. simpl.
  rewrite Hroot. unfold bind, deref, ret. simpl.
  rewrite HA, Hnoname, Halias, Hname. simpl.
  rewrite HB, Hnosub, Hnoalias. simpl. rewrite HB. simpl.
  unfold set_logs. simpl. now rewrite <- app_assoc.
Qed.

(** ** Registration *)

(** The loop rule: an invariant that every iteration re-establishes holds
    when the loop is over, and the loop returns. *)
Lemma forEach_inv {A} (I : @State World -> Prop) (l : list A) (body : A -> @M World unit) :
  (forall x st, In x l -> I st -> exists st', body x st = (Ok tt, st') /\ I st') ->
  forall st, I st -> exists st', forEach l body st = (Ok tt, st') /\ I st'.
Proof.
  induction l as [|x l IH]; intros Hbody s Hs; simpl.
  - exists s. now split.
  - destruct (Hbody x s (or_introl eq_refl) Hs) as (s1 & Hx & Hs1).
    rewrite (bind_Ok _ _ _ _ _ Hx).
    apply IH; [|exact Hs1]. intros y s2 Hy. apply Hbody. now right.
Qed.

Lemma erasePath_set_fullPath (x : string) c :
  erasePath (set_fullPath x c) = erasePath c.
Proof. reflexivity. Qed.

Lemma erasePath_fields c c' :
  erasePath c = erasePath c' ->
  Name c = Name c' /\ Aliases c = Aliases c' /\ Handler c = Handler c' /\
  commands c = commands c' /\ commandsAliases c = commandsAliases c'.
Proof. destruct c, c'. unfold erasePath, set_fullPath. simpl. intros [=]. now subst. Qed.

Lemma erased_lookup h h' (a : addr) :
  erasePath <$> h = erasePath <$> h' ->
  erasePath <$> (h !! a) = erasePath <$> (h' !! a).
Proof. intros H. rewrite <- !lookup_fmap. now rewrite H. Qed.

Lemma erased_store h (a : addr) (x : string) c :
  h !! a = Some c ->
  erasePath <$> <[a := set_fullPath x c]> h = erasePath <$> h.
Proof.
  intros H. rewrite fmap_insert, erasePath_set_fullPath.
  apply insert_id. now rewrite lookup_fmap, H.
Qed.

Lemma samePaths_refl st : samePaths st st.
Proof. now repeat split. Qed.

Lemma samePaths_trans st1 st2 st3 :
  samePaths st1 st2 -> samePaths st2 st3 -> samePaths st1 st3.
Proof. intros (?&?&?&?) (?&?&?&?). repeat split; congruence. Qed.

Lemma samePaths_store st (a : addr) (x : string) c :
  heap st !! a = Some c ->
  samePaths st (set_heap (<[a := set_fullPath x c]> (heap st)) st).
Proof.
  intros H. repeat split; simpl. symmetry. now apply erased_store.
Qed.

(** The shape test looks at [commands] only. *)
Lemma treeWithin_erased h h' :
  erasePath <$> h = erasePath <$> h' ->
  forall depth a, treeWithin h depth a = treeWithin h' depth a.
Proof.
  intros Heq. induction depth as [|d IH]; intros a; simpl; [reflexivity|].
  pose proof (erased_lookup h h' a Heq) as Ha.
  destruct (h !! a) as [c|], (h' !! a) as [c'|]; simpl in Ha; try discriminate;
    [|reflexivity].
  apply (inj Some) in Ha. apply erasePath_fields in Ha as (_ & _ & _ & Hc & _).
  rewrite Hc. induction (map_to_list (commands c')) as [|kv l IHl]; simpl; [reflexivity|].
  now rewrite IH, IHl.
Qed.

Lemma treeWithin_children h (depth : nat) (a : addr) c :
  treeWithin h (S depth) a = true ->
  h !! a = Some c ->
  forall kv, In kv (map_to_list (commands c)) -> treeWithin h depth (snd kv) = true.
Proof.
  simpl. intros Ht Ha. rewrite Ha in Ht. now apply forallb_forall.
Qed.

Lemma treeWithin_present h (depth : nat) (a : addr) :
  treeWithin h depth a = true -> exists c, h !! a = Some c.
Proof.
  destruct depth; simpl; [discriminate|].
  destruct (h !! a) as [c|]; [eauto|discriminate].
Qed.

(** No command of such a tree is its own child. *)
Lemma treeWithin_irreflexive h (depth : nat) :
  forall (a : addr) c (k : string),
    treeWithin h depth a = true -> h !! a = Some c -> commands c !! k <> Some a.
Proof.
  induction depth as [|d IH]; intros a c k Ht Ha Hk; [discriminate|].
  apply (IH a c k); [|exact Ha|exact Hk].
  apply (treeWithin_children h d a c Ht Ha (k, a)).
  apply list_elem_of_In, elem_of_map_to_list. exact Hk.
Qed.

(** On a tree of depth at most [fuel], [SetFullPath] returns, and it has
    changed derived paths only. *)
Lemma Command_SetFullPath_returns (fuel : nat) :
  forall (a : addr) st,
    treeWithin (heap st) fuel a = true ->
    exists st', Command_SetFullPath fuel a st = (Ok tt, st') /\ samePaths st st'.
Proof.
  induction fuel as [|d IH]; intros a st Ht; [discriminate|].
  destruct (treeWithin_present _ _ _ Ht) as [this Hthis].
  cbn [Command_SetFullPath].
  rewrite (bind_Ok _ _ _ _ _ (deref_Some _ _ _ Hthis)).
  set (first := if String.eqb (fullPath this) "" then store a (set_fullPath (Name this) this)
                else ret tt).
  assert (exists st1, first st = (Ok tt, st1) /\ samePaths st st1) as (st1 & Hfirst & Hst1).
  { unfold first. destruct (String.eqb (fullPath this) "").
    - eexists. split; [reflexivity|]. now apply samePaths_store.
    - eexists. split; [reflexivity|]. apply samePaths_refl. }
  rewrite (bind_Ok _ _ _ _ _ Hfirst).
  destruct (forEach_inv (fun s => samePaths st s) (map_to_list (commands this))
    (fun '(_, subCmd) =>
       bind (deref (Some a)) (fun this0 =>
       bind (deref (Some subCmd)) (fun sub =>
       bind (store subCmd (set_fullPath (fullPath this0 ++ " " ++ Name sub) sub)) (fun _ =>
       Command_SetFullPath d subCmd))))) with (st := st1) as (st2 & Hloop & Hst2);
    [|exact Hst1|exists st2; split; [exact Hloop|exact Hst2]].
  intros [k subCmd] s Hin Hs.
  pose proof (treeWithin_children _ _ _ _ Ht Hthis _ Hin) as Hsub. simpl in Hsub.
  destruct Hs as (Hheap & Hreg & Hlogs & Hworld).
  assert (exists this0, heap s !! a = Some this0) as [this0 Hthis0].
  { pose proof (erased_lookup _ _ a Hheap) as H. rewrite Hthis in H.
    destruct (heap s !! a); [eauto|discriminate]. }
  rewrite (treeWithin_erased _ _ Hheap) in Hsub.
  destruct (treeWithin_present _ _ _ Hsub) as [sub Hsubc].
  rewrite (bind_Ok _ _ _ _ _ (deref_Some _ _ _ Hthis0)).
  rewrite (bind_Ok _ _ _ _ _ (deref_Some _ _ _ Hsubc)).
  unfold bind at 1. unfold store at 1.
  pose proof (samePaths_store s subCmd (fullPath this0 ++ " " ++ Name sub) sub Hsubc) as Hs1.
  destruct (IH subCmd (set_heap (<[subCmd := set_fullPath (fullPath this0 ++ " " ++ Name sub) sub]>
                                   (heap s)) s)) as (s2 & Hrec & Hs2).
  { rewrite <- (treeWithin_erased _ _ (proj1 Hs1)). exact Hsub. }
  exists s2. split; [exact Hrec|].
  eapply samePaths_trans; [|exact Hs2].
  eapply samePaths_trans; [|exact Hs1].
  now repeat split.
Qed.

Lemma logger_run {B} (lvl : Level) (msg : string) (k : unit -> @M World B) st :
  bind (logger lvl msg) k st = k tt (set_logs (logs st ++ [(lvl, msg)]) st).
Proof. reflexivity. Qed.

Lemma CommandRegistry_registerMiddleware_run (a : addr) mws c st :
  heap st !! a = Some c ->
  CommandRegistry_registerMiddleware a mws st =
    (Ok tt, set_heap (<[a := set_Handler (applyMiddlewares mws (Handler c)) c]> (heap st)) st).
Proof.
  intros H. unfold CommandRegistry_registerMiddleware.
  rewrite (bind_Ok _ _ _ _ _ (deref_Some _ _ _ H)).
  now rewrite (bind_Ok _ _ _ _ _ (deref_Some _ _ _ H)).
Qed.

(** After [registerCommandWithAlias] the flat index has the command under
    its name; nothing but the index has changed. *)
Lemma CommandRegistry_registerCommandWithAlias_run (cmd : addr) c st :
  heap st !! cmd = Some c ->
  exists st',
    CommandRegistry_registerCommandWithAlias cmd st = (Ok tt, st') /\
    heap st' = heap st /\ logs st' = logs st /\ world st' = world st /\
    registry st' !! Name c = Some cmd.
Proof.
  intros H. unfold CommandRegistry_registerCommandWithAlias.
  rewrite (bind_Ok _ _ _ _ _ (deref_Some _ _ _ H)).
  unfold bind at 1. unfold getRegistry at 1.
  unfold bind at 1. unfold putRegistry at 1.
  apply (forEach_inv (fun s => heap s = heap st /\ logs s = logs st /\ world s = world st /\
                               registry s !! Name c = Some cmd)).
  - intros alias s _ (Hh & Hl & Hw & Hr). eexists. split; [reflexivity|].
    simpl. repeat split; try assumption.
    destruct (decide (alias = Name c)) as [->|Hne].
    + apply lookup_insert_eq.
    + now rewrite lookup_insert_ne.
  - simpl. repeat split. apply lookup_insert_eq.
Qed.

(** The shape test is monotone: more fuel never hurts. *)
Lemma treeWithin_mono h (depth : nat) :
  forall (depth' : nat) (a : addr),
    depth <= depth' -> treeWithin h depth a = true -> treeWithin h depth' a = true.
Proof.
  induction depth as [|d IH]; intros depth' a Hle Ht; [discriminate|].
  destruct depth' as [|d']; [lia|]. simpl in *.
  destruct (h !! a) as [c|]; [|discriminate].
  apply forallb_forall. intros kv Hin.
  apply IH; [lia|]. revert kv Hin. now apply forallb_forall.
Qed.

(** [Register] on a name that is not yet in the flat index, for a command
    whose subtree is a tree of depth at most [fuel]: the call returns the
    command, whose handler is now the old one wrapped in the middlewares,
    and the flat index has it under its name.  The handler of every command
    that is neither the registered one nor one of its direct children is
    what it was. *)
Lemma CommandRegistry_Register_returns (fuel : nat) (cmd : addr) mws c st :
  heap st !! cmd = Some c ->
  registry st !! Name c = None ->
  treeWithin (heap st) fuel cmd = true ->
  exists st' c',
    CommandRegistry_Register fuel cmd mws st = (Ok cmd, st') /\
    heap st' !! cmd = Some c' /\
    Handler c' = applyMiddlewares mws (Handler c) /\
    Name c' = Name c /\
    registry st' !! Name c = Some cmd /\
    world st' = world st /\
    (forall (a : addr) x,
       a <> cmd -> (forall k, commands c !! k <> Some a) -> heap st !! a = Some x ->
       exists x', heap st' !! a = Some x' /\ Handler x' = Handler x).
Proof.
  intros Hc Hr Ht. unfold CommandRegistry_Register.
  rewrite (bind_Ok _ _ _ _ _ (deref_Some _ _ _ Hc)).
  unfold bind at 1. unfold getRegistry at 1. rewrite Hr.
  destruct (Command_SetFullPath_returns fuel cmd st Ht) as (st1 & Hset & Hsame).
  rewrite (bind_Ok _ _ _ _ _ Hset). rewrite !logger_run.
  destruct Hsame as (Hheap & Hreg & Hlogs & Hworld).
  assert (forall a x, heap st !! a = Some x ->
                      exists x1, heap st1 !! a = Some x1 /\ erasePath x = erasePath x1) as Hst1.
  { intros a x Hx. pose proof (erased_lookup _ _ a Hheap) as H. rewrite Hx in H.
    destruct (heap st1 !! a) as [x1|]; [|discriminate].
    exists x1. split; [reflexivity|]. now apply (inj Some) in H. }
  destruct (Hst1 cmd c Hc) as (c1 & Hc1 & He1).
  apply erasePath_fields in He1 as (Hname & Halias & Hhandler & Hcommands & _).
  match goal with |- context [bind (CommandRegistry_registerMiddleware cmd mws) _ ?s] =>
    set (st2 := s) end.
  rewrite (bind_Ok _ _ _ _ _ (CommandRegistry_registerMiddleware_run cmd mws c1 st2 Hc1)).
  set (c2 := set_Handler (applyMiddlewares mws (Handler c1)) c1).
  match goal with |- context [bind (deref (Some cmd)) _ ?s] => set (st3 := s) end.
  assert (heap st3 !! cmd = Some c2) as Hc2 by apply lookup_insert_eq.
  rewrite (bind_Ok _ _ _ _ _ (deref_Some _ _ _ Hc2)).
  destruct (forEach_inv
    (fun s => heap s !! cmd = Some c2 /\ world s = world st /\
              (forall a, is_Some (heap st !! a) -> is_Some (heap s !! a)) /\
              (forall a x, a <> cmd -> (forall k, commands c !! k <> Some a) ->
                 heap st !! a = Some x ->
                 exists x', heap s !! a = Some x' /\ Handler x' = Handler x))
    (map_to_list (commands c2))
    (fun '(_, subCmd) => CommandRegistry_registerMiddleware subCmd mws))
    with (st := st3) as (st4 & Hloop & Hc4 & Hw4 & _ & Hrest4).
  - intros [k subCmd] s Hin (Hs & Hw & Hdom & Hrest).
    change (commands c2) with (commands c1) in Hin. rewrite <- Hcommands in Hin.
    pose proof Hin as Hchild. apply list_elem_of_In, elem_of_map_to_list in Hchild.
    assert (subCmd <> cmd) as Hne.
    { intros ->. exact (treeWithin_irreflexive _ _ _ _ _ Ht Hc Hchild). }
    destruct fuel as [|d]; [discriminate|].
    pose proof (treeWithin_children _ _ _ _ Ht Hc _ Hin) as Hsub. simpl in Hsub.
    destruct (Hdom subCmd) as [x Hx].
    { destruct (treeWithin_present _ _ _ Hsub) as [y Hy]. now exists y. }
    rewrite (CommandRegistry_registerMiddleware_run subCmd mws x s Hx).
    eexists. split; [reflexivity|]. simpl. split; [|split; [exact Hw|split]].
    + now rewrite lookup_insert_ne.
    + intros a Ha. destruct (decide (subCmd = a)) as [->|Hna].
      * rewrite lookup_insert_eq. eauto.
      * rewrite lookup_insert_ne by exact Hna. now apply Hdom.
    + intros a y Hna Hnochild Hy.
      rewrite lookup_insert_ne; [now apply Hrest|].
      intros ->. exact (Hnochild k Hchild).
  - split; [exact Hc2|]. split; [simpl; congruence|]. split.
    + intros a [x Hx]. simpl.
      destruct (decide (cmd = a)) as [->|Hna].
      * rewrite lookup_insert_eq. eauto.
      * rewrite lookup_insert_ne by exact Hna.
        destruct (Hst1 a x Hx) as (x1 & Hx1 & _). eauto.
    + intros a x Hna _ Hx. simpl.
      rewrite lookup_insert_ne by congruence.
      destruct (Hst1 a x Hx) as (x1 & Hx1 & Hex).
      exists x1. split; [exact Hx1|].
      apply erasePath_fields in Hex as (_ & _ & Hh & _). now symmetry.
  - rewrite (bind_Ok _ _ _ _ _ Hloop).
    destruct (CommandRegistry_registerCommandWithAlias_run cmd c2 st4 Hc4)
      as (st5 & Hreg5 & Hh5 & _ & Hw5 & Hr5).
    rewrite (bind_Ok _ _ _ _ _ Hreg5). rewrite logger_run.
    eexists. exists c2. split; [reflexivity|]. simpl.
    rewrite Hh5, Hw5. change (Name c2) with (Name c1) in Hr5.
    repeat split; try congruence.
    intros a x Hna Hnochild Hx. now apply Hrest4.
Qed.

(** A second [Register] under the name of a command registered before
    returns the first command and changes nothing, whatever object and
    middlewares it is given. *)
Lemma CommandRegistry_Register_twice
    (fuel fuel2 : nat) (cmd cmd2 : addr) mws mws2 c c2 st st' :
  heap st !! cmd = Some c ->
  registry st !! Name c = None ->
  treeWithin (heap st) fuel cmd = true ->
  CommandRegistry_Register fuel cmd mws st = (Ok cmd, st') ->
  heap st' !! cmd2 = Some c2 ->
  Name c2 = Name c ->
  CommandRegistry_Register fuel2 cmd2 mws2 st' = (Ok cmd, st').
Proof.
  intros Hc Hr Ht Hrun Hc2 Hname.
  destruct (CommandRegistry_Register_returns fuel cmd mws c st Hc Hr Ht)
    as (st1 & c' & Hrun1 & _ & _ & _ & Hreg & _).
  rewrite Hrun in Hrun1. injection Hrun1 as <-.
  unfold CommandRegistry_Register.
  rewrite (bind_Ok _ _ _ _ _ (deref_Some _ _ _ Hc2)).
  unfold bind, getRegistry. now rewrite Hname, Hreg.
Qed.

(** C4.  For a command that is not yet in the flat index and whose subtree
    is a tree of depth at most [fuel], [Register] with the middlewares [A]
    and [B] returns and leaves the command with the handler [A (B H)], [H]
    being the handler it came with: a call of the command is a call of what
    [A] made of [B]'s wrapping of [H].  For
    middlewares of the usual form this reads: [A]'s part runs first, on the
    world as the caller left it; if it returns without calling [next], that
    is the result and neither [B] nor [H] has run; otherwise [B]'s part runs
    on what [A] left, and [H] on what [B] left. *)
Theorem CommandRegistry_Register_middleware_order
    (fuel : nat) (cmd : addr) (A B : Middleware) c st :
  heap st !! cmd = Some c ->
  registry st !! Name c = None ->
  treeWithin (heap st) fuel cmd = true ->
  exists st' c',
    CommandRegistry_Register fuel cmd [A; B] st = (Ok cmd, st') /\
    heap st' !! cmd = Some c' /\
    Handler c' = A (B (Handler c)) /\
    forall preA preB, A = guard preA -> B = guard preB ->
      forall ctx args w,
        invoke (Handler c') ctx args w =
          match preA ctx args w with
          | Abort w1 r1 err => HReturn w1 r1 err
          | Proceed w1 r1 =>
            match preB (withResponse r1 ctx) args w1 with
            | Abort w2 r2 err => HReturn w2 r2 err
            | Proceed w2 r2 =>
              invoke (Handler c) (withResponse r2 (withResponse r1 ctx)) args w2
            end
          end.
Proof.
  intros Hc Hr Ht.
  destruct (CommandRegistry_Register_returns fuel cmd [A; B] c st Hc Hr Ht)
    as (st' & c' & Hrun & Hc' & Hh & _).
  exists st', c'. repeat split; try assumption.
  intros preA preB -> -> ctx args w. rewrite Hh. simpl.
  destruct (preA ctx args w) as [w1 r1|w1 r1 err]; reflexivity.
Qed.

End RoutingProperties.

(** ** The scenarios *)

(** C2 (fails as stated).  With nothing registered, [Find] on the single
    token [help] does not return a nil argument list: it hands the token
    back. *)
Lemma CommandRegistry_Find_unmatched_keeps_args :
  registry (freshState tt) !! "help" = None /\
  fst (CommandRegistry_Find ["help"] (freshState tt)) = Ok (None, ["help"]) /\
  fst (CommandRegistry_Find ["help"] (freshState tt)) <> Ok (None, []).
Proof. repeat split. discriminate. Qed.

Lemma CommandRegistry_Find_no_match_witness :
  fst (CommandRegistry_Find [] (freshState tt)) = Ok (None, []) /\
  fst (CommandRegistry_Find ["help"; "me"] (freshState tt)) = Ok (None, ["help"; "me"]).
Proof.
  split.
  - exact (f_equal fst (CommandRegistry_Find_no_match [] (freshState tt) I)).
  - exact (f_equal fst (CommandRegistry_Find_no_match ["help"; "me"] (freshState tt) eq_refl)).
Defined.

Lemma CommandRegistry_Register_idempotent_witness :
  CommandRegistry_Register 0 3 [deny "audit"] (adminBanRegistered [pass "auth"]) =
    (Ok 0, adminBanRegistered [pass "auth"]).
Proof.
  apply (CommandRegistry_Register_idempotent 0 3 0 [deny "audit"]
           (newCommand "admin" [] (say "admin, again"))).
  - vm_compute. reflexivity.
  - vm_compute. reflexivity.
Defined.

Lemma EventProcessor_Process_not_handled_witness :
  fst (EventProcessor_Process false (textEvent "hello") (freshState tt)) =
    Ok (mkResponse "not_handled" AnyNil None) /\
  fst (EventProcessor_Process false (textEvent "/   ") (freshState tt)) =
    Ok (mkResponse "not_handled" AnyNil None).
Proof.
  split.
  - apply (f_equal fst (proj1 (EventProcessor_Process_not_handled
             false (textEvent "hello") "hello" (freshState tt) eq_refl (or_introl eq_refl)))).
  - apply (f_equal fst (proj1 (EventProcessor_Process_not_handled
             false (textEvent "/   ") "/   " (freshState tt) eq_refl (or_intror eq_refl)))).
Defined.

Lemma EventProcessor_Process_command_not_found_witness :
  fst (EventProcessor_Process false (textEvent "/help") (freshState tt)) =
    Ok (mkResponse "error" (AnyString "command not found") None).
Proof.
  apply (f_equal fst (EventProcessor_Process_command_not_found
           false (textEvent "/help") "/help" ["help"] (freshState tt) eq_refl
           ltac:(vm_compute; discriminate) eq_refl)).
Defined.

Lemma EventProcessor_Process_text_assertion_witness :
  fst (EventProcessor_Process false numberEvent (freshState tt)) = Panic PanicTypeAssertion /\
  fst (EventProcessor_Process false zeroEvent (freshState tt)) = Panic PanicTypeAssertion /\
  fst (EventProcessor_Process false (textEvent "/help") (freshState tt)) <> Panic PanicTypeAssertion.
Proof.
  split; [|split].
  - apply (proj2 (EventProcessor_Process_text_assertion false numberEvent (freshState tt))).
    intros s H. vm_compute in H. discriminate H.
  - apply (proj2 (EventProcessor_Process_text_assertion false zeroEvent (freshState tt))).
    intros s H. vm_compute in H. discriminate H.
  - intros H.
    apply (proj1 (EventProcessor_Process_text_assertion false (textEvent "/help") (freshState tt)) H
             "/help").
    reflexivity.
Defined.

Lemma CommandRegistry_Find_through_alias_witness :
  fst (CommandRegistry_Find ["admin"; "b"; "userX"] (adminBanRegistered [pass "auth"])) =
    Ok (Some 1, ["userX"]).
Proof.
  erewrite (CommandRegistry_Find_through_alias "admin" "ban" "b" "userX" 0 1).
  - reflexivity.
  - vm_compute. reflexivity.
  - vm_compute. reflexivity.
  - vm_compute. reflexivity.
  - vm_compute. reflexivity.
  - vm_compute. reflexivity.
  - vm_compute. reflexivity.
  - vm_compute. reflexivity.
  - vm_compute. reflexivity.
Defined.

Lemma CommandRegistry_Register_middleware_order_witness :
  exists st' c',
    CommandRegistry_Register 2 0 [pass "A"; deny "B"] adminBan = (Ok 0, st') /\
    heap st' !! 0 = Some c' /\
    Handler c' = pass "A" (deny "B" (say "admin")).
Proof.
  destruct (CommandRegistry_Register_middleware_order 2 0 (pass "A") (deny "B")
              (mkCommand "admin" None "" [] "" "" (say "admin") {[ "ban" := 1 ]} {[ "b" := "ban" ]})
              adminBan)
    as (st' & c' & Hrun & Hc' & Hh & _).
  - vm_compute. reflexivity.
  - vm_compute. reflexivity.
  - vm_compute. reflexivity.
  - exists st', c'. repeat split; assumption.
Defined.

(** The journal of one call, for the two orders of a passing and a denying
    middleware. *)
Example journal_pass_pass :
  let run := EventProcessor_Process false (textEvent "/admin now")
               (adminBanRegistered [pass "A"; pass "B"]) in
  fst run = Ok (mkResponse "text" (AnyString "admin") None) /\
  world (snd run) = ["A"; "B"; "admin"].
Proof. vm_compute. split; reflexivity. Qed.

Example journal_deny_pass :
  let run := EventProcessor_Process false (textEvent "/admin now")
               (adminBanRegistered [deny "A"; pass "B"]) in
  fst run = Ok (mkResponse "error" (AnyString "permission denied") None) /\
  world (snd run) = ["A"].
Proof. vm_compute. split; reflexivity. Qed.

(** C3 (fails on the code).  [admin] has the child [user], which has the
    child [ban].  After [Register(admin, deny)] the handlers of [admin] and
    of [user] are wrapped, the handler of [ban] is the one it came with: the
    loop of [Register] runs over [cmd.commands] and does not go deeper.  A
    call of [/admin user] is stopped by the middleware; a call of
    [/admin user ban] runs the handler with the middleware never called. *)
Theorem CommandRegistry_Register_skips_grandchildren :
  let registered := CommandRegistry_Register 3 0 [deny "auth"] adminUserBan in
  let st := snd registered in
  fst registered = Ok 0 /\
  Handler <$> heap st !! 0 = Some (deny "auth" (say "admin")) /\
  Handler <$> heap st !! 2 = Some (deny "auth" (say "user")) /\
  Handler <$> heap st !! 1 = Some (say "ban") /\
  fullPath <$> heap st !! 1 = Some "admin user ban" /\
  (let run := EventProcessor_Process false (textEvent "/admin user now") st in
   fst run = Ok (mkResponse "error" (AnyString "permission denied") None) /\
   world (snd run) = ["auth"]) /\
  (let run := EventProcessor_Process false (textEvent "/admin user ban now") st in
   fst run = Ok (mkResponse "text" (AnyString "ban") None) /\
   world (snd run) = ["ban"]).
Proof. vm_compute. repeat split; reflexivity. Qed.

(** ** The worker pool *)

Lemma worker_update (ws : list Worker) (i : nat) (w w' : Worker) :
  ws !! i = Some w ->
  exists l1 l2, ws = l1 ++ w :: l2 /\ <[i := w']> ws = l1 ++ w' :: l2.
Proof.
  intros H. exists (take i ws), (drop (S i) ws). split.
  - symmetry. now apply take_drop_middle.
  - apply insert_take_drop. eapply lookup_lt_Some, H.
Qed.

Lemma running_app (l1 l2 : list Worker) : running (l1 ++ l2) = running l1 ++ running l2.
Proof. apply omap_app. Qed.

Lemma live_app (l1 l2 : list Worker) : live (l1 ++ l2) = live l1 + live l2.
Proof. unfold live. now rewrite List.filter_app, length_app. Qed.

Lemma anyLeft_app (l1 l2 : list Worker) : anyLeft (l1 ++ l2) = anyLeft l1 || anyLeft l2.
Proof. apply existsb_app. Qed.

Lemma live_replicate (n : nat) : live (replicate n Receiving) = n.
Proof. induction n as [|n IH]; [reflexivity|]. unfold live in *. simpl. now rewrite IH. Qed.

Lemma anyLeft_replicate (n : nat) : anyLeft (replicate n Receiving) = false.
Proof. induction n as [|n IH]; [reflexivity|]. exact IH. Qed.

Lemma running_replicate (n : nat) : running (replicate n Receiving) = [].
Proof. induction n as [|n IH]; [reflexivity|]. exact IH. Qed.

(** Once every [wg.Done()] has run, no task is in flight and, if there is a
    worker at all, some worker has left its loop. *)
Lemma live_zero (ws : list Worker) :
  live ws = 0 -> running ws = [] /\ (ws <> [] -> anyLeft ws = true).
Proof.
  induction ws as [|w ws IH]; intros H; [now split|].
  destruct w; unfold live in H; simpl in H; try discriminate.
  destruct (IH H) as [Hr _]. split; [exact Hr|reflexivity].
Qed.

Lemma PoolInv_New (n : nat) : PoolInv n (NewWorkerPool n).
Proof. repeat split; try reflexivity; try discriminate. intros H. now destruct H. Qed.

Ltac split_worker H :=
  let l1 := fresh "l1" in
  let l2 := fresh "l2" in
  let Hws := fresh "Hws" in
  let Hup := fresh "Hup" in
  match type of H with
  | ?ws !! ?i = Some ?w =>
    match goal with
    | |- context [<[i := ?w']> ws] =>
      destruct (worker_update ws i w w' H) as (l1 & l2 & Hws & Hup);
      rewrite Hup; rewrite Hws in *
    end
  end.

Ltac reduce_lists :=
  rewrite ?running_app, ?live_app, ?anyLeft_app, ?length_app in *;
  unfold live, anyLeft in *; simpl in *;
  fold anyLeft in *.

(** The side conditions of the invariant after one action. *)
Ltac pool_side :=
  intros; try discriminate; try lia;
  try match goal with
  | Hc : ?c = Created -> ?l1 ++ _ :: _ = [], H : ?c = Created |- _ =>
    destruct l1; discriminate (Hc H)
  | Hl : ?c <> Created -> _ = ?n, H : ?c <> Created |- _ = ?n =>
    rewrite <- (Hl H); rewrite ?length_app; simpl; lia
  | Hl : ?c <> Created -> _ = ?n |- _ = ?n =>
    apply Hl; congruence
  | Hs : ?c = Stopped -> S _ = 0, H : ?c = Stopped |- _ =>
    discriminate (Hs H)
  | Hl : ?a = true -> _ /\ _, H : ?a = true |- _ =>
    let H1 := fresh in let H2 := fresh in
    destruct (Hl H) as [H1 H2]; first [assumption | congruence | discriminate]
  end.

(** Every action keeps the invariant. *)
Lemma PoolInv_step (n : nat) (a : Action) (p p' : WorkerPool) :
  PoolInv n p -> step a p = Some p' -> PoolInv n p'.
Proof.
  intros (Hn & Hperm & Hwg & Hcreated & Hlen & Hleft & Hstopped) Hstep.
  destruct a as [|t|i|i|i|i| |]; simpl in Hstep.
  - (* Start *)
    destruct (caller p) eqn:Hcaller; try discriminate.
    injection Hstep as <-. unfold PoolInv; simpl.
    rewrite (Hcreated eq_refl) in *.
    rewrite live_replicate, anyLeft_replicate, running_replicate, length_replicate.
    change (live []) with 0 in Hwg.
    repeat split; try assumption; try discriminate; lia.
  - (* Submit *)
    destruct (closed p) eqn:Hclosed; [discriminate|].
    destruct (Nat.ltb _ _); [|discriminate].
    injection Hstep as <-. unfold PoolInv; simpl.
    repeat split; try assumption; pool_side.
    rewrite Hperm. solve_Permutation.
  - (* Receive *)
    destruct (goroutines p !! i) as [[| | |]|] eqn:Hi; try discriminate.
    destruct (taskChan p) as [|t q] eqn:Hchan; [discriminate|].
    injection Hstep as <-. unfold PoolInv; simpl.
    split_worker Hi. reduce_lists.
    repeat split; try assumption; pool_side.
    rewrite Hperm. solve_Permutation.
  - (* Finish *)
    destruct (goroutines p !! i) as [[|t| |]|] eqn:Hi; try discriminate.
    injection Hstep as <-. unfold PoolInv; simpl.
    split_worker Hi. reduce_lists.
    repeat split; try assumption; pool_side.
    rewrite Hperm. solve_Permutation.
  - (* Drained *)
    destruct (goroutines p !! i) as [[| | |]|] eqn:Hi; try discriminate.
    destruct (taskChan p) as [|t q] eqn:Hchan; [|discriminate].
    destruct (closed p) eqn:Hclosed; [|discriminate].
    injection Hstep as <-. unfold PoolInv, set_worker; simpl.
    rewrite Hchan, Hclosed.
    split_worker Hi. reduce_lists.
    repeat split; try assumption; pool_side.
  - (* Done *)
    destruct (goroutines p !! i) as [[| | |]|] eqn:Hi; try discriminate.
    destruct (wg p) as [|m] eqn:Hm; [discriminate|].
    injection Hstep as <-. unfold PoolInv; simpl.
    split_worker Hi. reduce_lists.
    rewrite orb_true_r in Hleft. destruct (Hleft eq_refl) as [Hclosed Hchan].
    repeat split; try assumption; pool_side.
  - (* Stop: close *)
    destruct (caller p) eqn:Hcaller; try discriminate.
    injection Hstep as <-. unfold PoolInv; simpl.
    repeat split; try assumption; pool_side.
  - (* Stop: return *)
    destruct (caller p) eqn:Hcaller; try discriminate.
    destruct (wg p) eqn:Hm; [|discriminate].
    injection Hstep as <-. unfold PoolInv; simpl.
    repeat split; try assumption; pool_side.
Qed.

Lemma PoolInv_run (n : nat) (schedule : list Action) :
  forall p p', PoolInv n p -> run schedule p = Some p' -> PoolInv n p'.
Proof.
  induction schedule as [|a rest IH]; intros p p' Hinv Hrun; simpl in Hrun.
  - now injection Hrun as <-.
  - destruct (step a p) as [p1|] eqn:Hstep; [|discriminate].
    eapply IH; [|exact Hrun]. eapply PoolInv_step; eassumption.
Qed.

(** C9.  In every run of a pool of [n >= 1] workers, from [NewWorkerPool] on
    and under every interleaving of the goroutines, once [Stop] has returned
    the [k] tasks whose [Submit] returned are exactly the tasks whose call
    has returned; none is left in the channel and none is still running. *)
Theorem WorkerPool_Stop_drains (n k : nat) (schedule : list Action) (p : WorkerPool) :
  1 <= n ->
  run schedule (NewWorkerPool n) = Some p ->
  caller p = Stopped ->
  length (submitted p) = k ->
  completed p ≡ₚ submitted p /\
  length (completed p) = k /\
  taskChan p = [] /\
  running (goroutines p) = [].
Proof.
  intros Hn Hrun Hstop Hk.
  destruct (PoolInv_run n schedule _ _ (PoolInv_New n) Hrun)
    as (_ & Hperm & Hwg & _ & Hlen & Hleft & Hstopped).
  rewrite (Hstopped Hstop) in Hwg. symmetry in Hwg.
  destruct (live_zero _ Hwg) as [Hrunning Hany].
  assert (goroutines p <> []) as Hne.
  { intros H. assert (length (goroutines p) = n) as Hl by (apply Hlen; congruence).
    rewrite H in Hl. simpl in Hl. lia. }
  destruct (Hleft (Hany Hne)) as [_ Hchan].
  rewrite Hrunning, Hchan, !app_nil_r in Hperm.
  repeat split; try assumption.
  - now symmetry.
  - now rewrite <- Hperm.
Qed.

Lemma WorkerPool_Stop_drains_witness :
  exists p,
    run drainSchedule (NewWorkerPool 2) = Some p /\
    caller p = Stopped /\
    submitted p = [10; 11; 12] /\
    completed p ≡ₚ submitted p.
Proof.
  eexists. split; [vm_compute; reflexivity|].
  split; [reflexivity|]. split; [reflexivity|].
  apply (WorkerPool_Stop_drains 2 3 drainSchedule); [lia|reflexivity|reflexivity|reflexivity].
Defined.

(** * Further properties of the code *)

(** ** Tokenizing *)

Lemma string_app_cons (x : ascii) (a b : string) :
  (String x a ++ b = String x (a ++ b))%string.
Proof. reflexivity. Qed.

Lemma string_app_nil_l (a : string) : ("" ++ a = a)%string.
Proof. reflexivity. Qed.

Lemma string_app_assoc (a b c : string) : ((a ++ b) ++ c = a ++ (b ++ c))%string.
Proof.
  induction a as [|x a IH]; [reflexivity|].
  now rewrite !string_app_cons, IH.
Qed.

Lemma string_app_nil_r (a : string) : (a ++ "" = a)%string.
Proof.
  induction a as [|x a IH]; [reflexivity|].
  now rewrite string_app_cons, IH.
Qed.

Lemma noAsciiSpace_app (a b : string) :
  noAsciiSpace (a ++ b) = noAsciiSpace a && noAsciiSpace b.
Proof.
  induction a as [|x a IH]; [reflexivity|].
  rewrite string_app_cons. simpl. now rewrite IH, andb_assoc.
Qed.

Lemma spaceWidth_zero_head (c : ascii) (s : string) :
  spaceWidth (String c s) = 0 -> asciiSpace (N_of_ascii c) = false.
Proof.
  unfold spaceWidth. change (byteAt (String c s) 0) with (N_of_ascii c).
  destruct (asciiSpace (N_of_ascii c)); [discriminate|reflexivity].
Qed.

Lemma flushField_Forall (P : string -> Prop) (cur : string) (fields : list string) :
  (cur <> "" -> P cur) -> Forall P fields -> Forall P (flushField cur fields).
Proof.
  intros Hcur Hf. destruct cur; simpl; [exact Hf|].
  constructor; [apply Hcur; discriminate|exact Hf].
Qed.

Lemma fieldsFrom_clean (s : string) :
  forall (skip : nat) (cur : string),
    noAsciiSpace cur = true ->
    Forall (fun t => t <> "" /\ noAsciiSpace t = true) (fieldsFrom skip cur s).
Proof.
  induction s as [|c s IH]; intros skip cur Hcur; cbn [fieldsFrom].
  - apply flushField_Forall; [now split|constructor].
  - destruct skip as [|k]; [|now apply IH].
    destruct (spaceWidth (String c s)) as [|w] eqn:Hw.
    + apply IH. rewrite noAsciiSpace_app, Hcur.
      cbn [noAsciiSpace andb]. now rewrite (spaceWidth_zero_head c s Hw).
    + apply flushField_Forall; [now split|]. now apply IH.
Qed.

(** X1.  Every token that [ParseCommand] returns is non-empty and contains
    none of the six ASCII white-space bytes, whatever the input. *)
Theorem ParseCommand_tokens_clean (input : string) :
  Forall (fun t => t <> "" /\ noAsciiSpace t = true) (ParseCommand input).
Proof.
  unfold ParseCommand, splitCommand.
  destruct (negb (HasPrefix input "/")); [constructor|].
  destruct (Nat.eqb _ 0); [constructor|].
  now apply fieldsFrom_clean.
Qed.

Lemma spaceWidth_plain (c : ascii) (s : string) :
  isPlainByte c = true -> spaceWidth (String c s) = 0.
Proof.
  unfold isPlainByte, spaceWidth. change (byteAt (String c s) 0) with (N_of_ascii c).
  intros H. apply andb_true_iff in H as [Hlt Hsp].
  apply negb_true_iff in Hsp. rewrite Hsp.
  apply N.ltb_lt in Hlt.
  assert (forall v, (0x80 <= v)%N -> (N_of_ascii c =? v)%N = false) as Hne.
  { intros v Hv. apply N.eqb_neq. lia. }
  rewrite !Hne by lia. reflexivity.
Qed.

Lemma fieldsFrom_plain (t : string) :
  forall (cur rest : string),
    plainString t = true ->
    fieldsFrom 0 cur (t ++ rest) = fieldsFrom 0 (cur ++ t) rest.
Proof.
  induction t as [|c t IH]; intros cur rest Ht.
  - now rewrite string_app_nil_l, string_app_nil_r.
  - simpl in Ht. apply andb_true_iff in Ht as [Hc Ht].
    rewrite string_app_cons. cbn [fieldsFrom].
    rewrite (spaceWidth_plain c (t ++ rest) Hc).
    rewrite IH by exact Ht. now rewrite string_app_assoc, string_app_cons.
Qed.

Lemma fieldsFrom_space (cur rest : string) :
  fieldsFrom 0 cur (String " " rest) = flushField cur (fieldsFrom 0 "" rest).
Proof. reflexivity. Qed.

Lemma Fields_joinTokens (tokens : list string) :
  Forall (fun t => plainToken t = true) tokens -> Fields (joinTokens tokens) = tokens.
Proof.
  unfold Fields, joinTokens.
  induction tokens as [|t tokens IH]; intros Hall; [reflexivity|].
  inversion Hall as [|? ? Ht Hrest]; subst.
  assert (plainString t = true /\ t <> "") as [Hplain Hne].
  { destruct t; [discriminate|]. split; [exact Ht|discriminate]. }
  destruct tokens as [|t2 tokens].
  - cbn [String.concat]. rewrite <- (string_app_nil_r t) at 1.
    rewrite fieldsFrom_plain by exact Hplain. rewrite string_app_nil_l.
    cbn [fieldsFrom]. destruct t; [contradiction|reflexivity].
  - change (String.concat " " (t :: t2 :: tokens))
      with (t ++ String " " (String.concat " " (t2 :: tokens)))%string.
    rewrite fieldsFrom_plain by exact Hplain.
    rewrite fieldsFrom_space, string_app_nil_l.
    rewrite (IH Hrest). destruct t; [contradiction|reflexivity].
Qed.

Lemma HasPrefix_slash (s : string) : HasPrefix (String "/" s) "/" = true.
Proof. now destruct s. Qed.

Lemma TrimPrefix_slash (s : string) : TrimPrefix (String "/" s) "/" = s.
Proof. unfold TrimPrefix. now rewrite HasPrefix_slash. Qed.

(** X2.  Round trip: a list of non-empty words of non-blank ASCII bytes,
    joined by single spaces behind the prefix, parses back to that list. *)
Theorem ParseCommand_joinTokens (tokens : list string) :
  Forall (fun t => plainToken t = true) tokens ->
  ParseCommand (String "/" (joinTokens tokens)) = tokens.
Proof.
  intros Hall. unfold ParseCommand, splitCommand.
  rewrite HasPrefix_slash, TrimPrefix_slash.
  cbn [negb]. rewrite (Fields_joinTokens tokens Hall).
  now destruct tokens.
Qed.

Lemma ParseCommand_joinTokens_witness :
  ParseCommand (String "/" (joinTokens ["admin"; "b"; "userX"])) = ["admin"; "b"; "userX"].
Proof.
  apply ParseCommand_joinTokens.
  repeat constructor.
Defined.

(** ** Building the command tree *)

Section TreeProperties.

Context {World : Type}.
Implicit Types (st : @State World) (c oc ocmd x : @Command World).
Implicit Types (h : gmap addr (@Command World)) (mws : list (@Middleware World)).

Lemma withAliases_member (name : string) (aliases : list string) :
  forall (m : gmap string string) (alias : string),
    In alias aliases -> withAliases name aliases m !! alias = Some name.
Proof.
  unfold withAliases.
  induction aliases as [|a aliases IH] using rev_ind; intros m alias Hin; [destruct Hin|].
  rewrite foldl_app. simpl. apply in_app_or in Hin as [Hin|[->|[]]].
  - destruct (decide (a = alias)) as [->|Hne]; [apply lookup_insert_eq|].
    rewrite lookup_insert_ne by exact Hne. now apply IH.
  - apply lookup_insert_eq.
Qed.

Lemma withAliases_lookup (name : string) (aliases : list string) :
  forall (m : gmap string string) (alias v : string),
    withAliases name aliases m !! alias = Some v ->
    v = name \/ m !! alias = Some v.
Proof.
  unfold withAliases.
  induction aliases as [|a aliases IH] using rev_ind; intros m alias v H; [now right|].
  rewrite foldl_app in H. simpl in H.
  destruct (decide (a = alias)) as [->|Hne].
  - rewrite lookup_insert_eq in H. left. congruence.
  - rewrite lookup_insert_ne in H by exact Hne. now apply IH.
Qed.

Lemma withAliases_other (name : string) (aliases : list string) :
  forall (m : gmap string string) (alias : string),
    ~ In alias aliases -> withAliases name aliases m !! alias = m !! alias.
Proof.
  unfold withAliases.
  induction aliases as [|a aliases IH]; intros m alias Hnot; [reflexivity|].
  simpl. rewrite IH by (intros H; apply Hnot; now right).
  apply lookup_insert_ne. intros ->. apply Hnot. now left.
Qed.

(** The inner loop of [AddCommand], in closed form. *)
Lemma AddCommand_aliases_run (c cmd : addr) (aliases : list string) :
  forall st oc ocmd,
    heap st !! c = Some oc ->
    heap st !! cmd = Some ocmd ->
    forEach aliases (fun alias =>
      bind (deref (Some cmd)) (fun x =>
      bind (deref (Some c)) (fun this =>
      store c (set_commandsAliases (<[alias := Name x]> (commandsAliases this)) this)))) st =
    (Ok tt,
     set_heap (<[c := set_commandsAliases
                        (withAliases (Name ocmd) aliases (commandsAliases oc)) oc]>
                 (heap st)) st).
Proof.
  induction aliases as [|alias aliases IH]; intros st oc ocmd Hc Hcmd.
  - simpl. unfold ret, withAliases. simpl. f_equal.
    replace (set_commandsAliases (commandsAliases oc) oc) with oc by now destruct oc.
    rewrite insert_id by exact Hc. now destruct st.
  - cbn [forEach].
    set (oc1 := set_commandsAliases (<[alias := Name ocmd]> (commandsAliases oc)) oc).
    set (st1 := set_heap (<[c := oc1]> (heap st)) st).
    match goal with |- bind ?m _ _ = _ =>
      assert (m st = (Ok tt, st1)) as Hbody
    end.
    { cbn beta. rewrite (bind_Ok _ _ _ _ _ (deref_Some _ _ _ Hcmd)).
      now rewrite (bind_Ok _ _ _ _ _ (deref_Some _ _ _ Hc)). }
    rewrite (bind_Ok _ _ _ _ _ Hbody).
    assert (heap st1 !! c = Some oc1) as Hc1 by apply lookup_insert_eq.
    assert (exists ocmd1, heap st1 !! cmd = Some ocmd1 /\ Name ocmd1 = Name ocmd)
      as (ocmd1 & Hcmd1 & Hname).
    { unfold st1. simpl. destruct (decide (c = cmd)) as [->|Hne].
      - rewrite lookup_insert_eq. exists oc1. split; [reflexivity|].
        unfold oc1. simpl. congruence.
      - rewrite lookup_insert_ne by exact Hne. now exists ocmd. }
    rewrite (IH st1 oc1 ocmd1 Hc1 Hcmd1). f_equal.
    unfold st1, set_heap. simpl. f_equal.
    rewrite insert_insert_eq. f_equal.
    unfold oc1, withAliases. simpl. now rewrite Hname.
Qed.

(** One round of the outer loop: [c.AddCommand(cmd)], in closed form. *)
Lemma AddCommand_one_run (c cmd : addr) st oc x :
  heap st !! c = Some oc ->
  heap st !! cmd = Some x ->
  let x1 := set_Parent (Some c) x in
  let this := if decide (c = cmd) then x1 else oc in
  let oc1 := set_commandsAliases
               (withAliases (Name x) (Aliases x) (commandsAliases this))
               (set_commands (<[Name x := cmd]> (commands this)) this) in
  Command_AddCommand c [cmd] st =
    (Ok tt, set_heap (<[c := oc1]> (<[cmd := x1]> (heap st))) st).
Proof.
  intros Hc Hx x1 this oc1. unfold Command_AddCommand.
  rewrite (bind_Ok _ _ _ _ _ (deref_Some _ _ _ Hc)).
  cbn [forEach].
  match goal with |- bind ?m _ _ = _ =>
    assert (m st = (Ok tt, set_heap (<[c := oc1]> (<[cmd := x1]> (heap st))) st)) as Hbody
  end.
  { rewrite (bind_Ok _ _ _ _ _ (deref_Some _ _ _ Hx)).
    unfold bind at 1. unfold store at 1.
    set (st1 := set_heap (<[cmd := set_Parent (Some c) x]> (heap st)) st).
    assert (heap st1 !! cmd = Some x1) as Hx1 by apply lookup_insert_eq.
    assert (heap st1 !! c = Some this) as Hthis.
    { unfold st1, this. simpl. destruct (decide (c = cmd)) as [->|Hne].
      - apply lookup_insert_eq.
      - rewrite lookup_insert_ne by congruence. exact Hc. }
    rewrite (bind_Ok _ _ _ _ _ (deref_Some _ _ _ Hx1)).
    rewrite (bind_Ok _ _ _ _ _ (deref_Some _ _ _ Hthis)).
    unfold bind at 1. unfold store at 1.
    set (oc2 := set_commands (<[Name x1 := cmd]> (commands this)) this).
    set (st2 := set_heap (<[c := oc2]> (heap st1)) st1).
    assert (heap st2 !! c = Some oc2) as Hc2 by apply lookup_insert_eq.
    assert (exists ocmd2, heap st2 !! cmd = Some ocmd2 /\ Name ocmd2 = Name x)
      as (ocmd2 & Hcmd2 & Hname).
    { unfold st2. simpl. destruct (decide (c = cmd)) as [->|Hne].
      - rewrite lookup_insert_eq. exists oc2. split; [reflexivity|].
        reflexivity.
      - rewrite lookup_insert_ne by exact Hne. rewrite lookup_insert_eq.
        now exists x1. }
    rewrite (AddCommand_aliases_run c cmd (Aliases x1) st2 oc2 ocmd2 Hc2 Hcmd2).
    f_equal. unfold st2, st1, set_heap. simpl. f_equal.
    rewrite insert_insert_eq. f_equal.
    unfold oc1, oc2. simpl. now rewrite Hname. }
  rewrite (bind_Ok _ _ _ _ _ Hbody). reflexivity.
Qed.

(** X3.  After [c.AddCommand(cmd)], for two commands of the heap: [cmd] has
    [c] as its parent, and a lookup from [c] that starts with the name of
    [cmd], or with one of its aliases that is not also the name of a child of
    [c], goes on at [cmd] with the remaining tokens.  Registry, log and world
    are untouched, and so is every other command. *)
Theorem Command_AddCommand_then_Find (c cmd : addr) st oc x :
  heap st !! c = Some oc ->
  heap st !! cmd = Some x ->
  exists st' oc' x',
    Command_AddCommand c [cmd] st = (Ok tt, st') /\
    heap st' !! c = Some oc' /\
    heap st' !! cmd = Some x' /\
    Parent x' = Some c /\
    (forall rest, Command_Find (Some c) (Name x :: rest) st' =
                  Command_Find (Some cmd) rest st') /\
    (forall alias rest,
       In alias (Aliases x) -> commands oc' !! alias = None ->
       Command_Find (Some c) (alias :: rest) st' = Command_Find (Some cmd) rest st') /\
    registry st' = registry st /\ logs st' = logs st /\ world st' = world st /\
    (forall b, b <> c -> b <> cmd -> heap st' !! b = heap st !! b).
Proof.
  intros Hc Hx. pose proof (AddCommand_one_run c cmd st oc x Hc Hx) as Hrun.
  cbv zeta in Hrun.
  set (x1 := set_Parent (Some c) x) in *.
  set (this := if decide (c = cmd) then x1 else oc) in *.
  set (oc1 := set_commandsAliases _ _) in *.
  eexists. exists oc1.
  assert (heap (set_heap (<[c := oc1]> (<[cmd := x1]> (heap st))) st) !! c = Some oc1)
    as Hc1 by apply lookup_insert_eq.
  assert (commands oc1 !! Name x = Some cmd) as Hname by apply lookup_insert_eq.
  assert (forall alias, In alias (Aliases x) ->
                        commandsAliases oc1 !! alias = Some (Name x)) as Halias.
  { intros alias Hin. now apply withAliases_member. }
  exists (if decide (c = cmd) then oc1 else x1).
  split; [exact Hrun|]. split; [exact Hc1|]. split; [|split; [|split; [|split]]].
  - simpl. destruct (decide (c = cmd)) as [->|Hne].
    + apply lookup_insert_eq.
    + rewrite lookup_insert_ne by exact Hne. apply lookup_insert_eq.
  - unfold oc1, this. destruct (decide (c = cmd)); reflexivity.
  - intros rest. cbn [Command_Find].
    rewrite (bind_Ok _ _ _ _ _ (deref_Some _ _ _ Hc1)). now rewrite Hname.
  - intros alias rest Hin Hnot. cbn [Command_Find].
    rewrite (bind_Ok _ _ _ _ _ (deref_Some _ _ _ Hc1)).
    now rewrite Hnot, (Halias alias Hin), Hname.
  - repeat split. intros b Hbc Hbcmd. simpl.
    rewrite lookup_insert_ne by congruence. now rewrite lookup_insert_ne by congruence.
Qed.

Lemma closedHeapb_spec h : closedHeapb h = true -> closedHeap h.
Proof.
  unfold closedHeapb, closedHeap. intros H a c Ha.
  rewrite forallb_forall in H.
  specialize (H (a, c)). simpl in H.
  assert (closedCommand h c = true) as Hc.
  { apply H. apply list_elem_of_In, elem_of_map_to_list. exact Ha. }
  unfold closedCommand in Hc. apply andb_true_iff in Hc as [H1 H2].
  rewrite forallb_forall in H1. rewrite forallb_forall in H2. split.
  - intros k s Hk. specialize (H1 (k, s)). simpl in H1.
    eapply bool_decide_eq_true_1, H1.
    apply list_elem_of_In, elem_of_map_to_list. exact Hk.
  - intros alias name Hk. specialize (H2 (alias, name)). simpl in H2.
    eapply bool_decide_eq_true_1, H2.
    apply list_elem_of_In, elem_of_map_to_list. exact Hk.
Qed.

Lemma wellFormedb_spec st : wellFormedb st = true -> wellFormed st.
Proof.
  unfold wellFormedb, wellFormed. intros H. apply andb_true_iff in H as [H1 H2].
  split; [now apply closedHeapb_spec|].
  intros k a Hk. rewrite forallb_forall in H2. specialize (H2 (k, a)). simpl in H2.
  eapply bool_decide_eq_true_1, H2.
  apply list_elem_of_In, elem_of_map_to_list. exact Hk.
Qed.

(** Overwriting a command of a closed heap by one whose children are in the
    heap and whose aliases name children keeps the heap closed. *)
Lemma closedHeap_insert h (a : addr) x :
  closedHeap h ->
  is_Some (h !! a) ->
  (forall k s, commands x !! k = Some s -> is_Some (h !! s)) ->
  (forall alias name, commandsAliases x !! alias = Some name ->
                      is_Some (commands x !! name)) ->
  closedHeap (<[a := x]> h).
Proof.
  intros Hclosed Ha Hchildren Haliases b c Hb.
  assert (forall s, is_Some (h !! s) -> is_Some (<[a := x]> h !! s)) as Hkeep.
  { intros s Hs. apply lookup_insert_is_Some. destruct (decide (a = s)); auto. }
  destruct (decide (a = b)) as [->|Hne].
  - rewrite lookup_insert_eq in Hb. injection Hb as <-. split.
    + intros k s Hk. apply Hkeep. now apply (Hchildren k).
    + exact Haliases.
  - rewrite lookup_insert_ne in Hb by exact Hne.
    destruct (Hclosed b c Hb) as [H1 H2]. split.
    + intros k s Hk. apply Hkeep. now apply (H1 k).
    + exact H2.
Qed.

(** X4.  [AddCommand] keeps the heap closed: when the receiver and all the
    commands handed in are in a closed heap, the call returns and the heap is
    closed again; no command is created or dropped, and registry, log and
    world are untouched. *)
Theorem Command_AddCommand_closedHeap (c : addr) (cmds : list addr) st :
  closedHeap (heap st) ->
  is_Some (heap st !! c) ->
  Forall (fun a => is_Some (heap st !! a)) cmds ->
  exists st',
    Command_AddCommand c cmds st = (Ok tt, st') /\
    closedHeap (heap st') /\
    dom (heap st') = dom (heap st) /\
    registry st' = registry st /\ logs st' = logs st /\ world st' = world st.
Proof.
  intros Hclosed [oc0 Hc0] Hcmds. unfold Command_AddCommand.
  rewrite (bind_Ok _ _ _ _ _ (deref_Some _ _ _ Hc0)).
  match goal with |- context [forEach cmds ?b] => set (body := b) end.
  apply (forEach_inv (fun s => closedHeap (heap s) /\ dom (heap s) = dom (heap st) /\
                               registry s = registry st /\ logs s = logs st /\
                               world s = world st));
    [|split; [exact Hclosed|now repeat split]].
  intros cmd s Hin (Hcl & Hdom & Hr & Hl & Hw).
  assert (forall a, is_Some (heap st !! a) -> is_Some (heap s !! a)) as Hpresent.
  { intros a Ha. apply elem_of_dom. rewrite Hdom. now apply elem_of_dom. }
  destruct (Hpresent c (ex_intro _ oc0 Hc0)) as [oc Hc].
  destruct (Hpresent cmd) as [x Hx].
  { rewrite Forall_forall in Hcmds. apply Hcmds. now apply list_elem_of_In. }
  pose proof (AddCommand_one_run c cmd s oc x Hc Hx) as Hrun. cbv zeta in Hrun.
  set (x1 := set_Parent (Some c) x) in *.
  set (this := if decide (c = cmd) then x1 else oc) in *.
  set (oc1 := set_commandsAliases _ _) in *.
  assert (body cmd s = (Ok tt, set_heap (<[c := oc1]> (<[cmd := x1]> (heap s))) s)) as Hbody.
  { unfold Command_AddCommand in Hrun.
    rewrite (bind_Ok _ _ _ _ _ (deref_Some _ _ _ Hc)) in Hrun.
    assert (bind (body cmd) (fun _ => ret tt) s =
            (Ok tt, set_heap (<[c := oc1]> (<[cmd := x1]> (heap s))) s)) as Hrun'
      by exact Hrun.
    unfold bind at 1 in Hrun'. unfold ret in Hrun'.
    destruct (body cmd s) as [[[]| |] s1]; congruence. }
  eexists. split; [exact Hbody|]. simpl.
  assert (closedHeap (<[cmd := x1]> (heap s))) as Hcl1.
  { apply closedHeap_insert; [exact Hcl|now exists x| |];
      destruct (Hcl cmd x Hx) as [H1 H2]; [exact H1|exact H2]. }
  assert (forall k s0, commands this !! k = Some s0 -> is_Some (heap s !! s0)) as Hthis1.
  { unfold this. destruct (decide (c = cmd)).
    - exact (proj1 (Hcl cmd x Hx)).
    - exact (proj1 (Hcl c oc Hc)). }
  assert (forall alias name, commandsAliases this !! alias = Some name ->
                             is_Some (commands this !! name)) as Hthis2.
  { unfold this. destruct (decide (c = cmd)).
    - exact (proj2 (Hcl cmd x Hx)).
    - exact (proj2 (Hcl c oc Hc)). }
  split; [|split; [|now repeat split]].
  - apply closedHeap_insert; [exact Hcl1| | |].
    + apply lookup_insert_is_Some. destruct (decide (cmd = c)); eauto.
    + intros k s0 Hk. apply lookup_insert_is_Some.
      destruct (decide (cmd = s0)) as [|Hne]; [now left|right].
      split; [exact Hne|]. simpl in Hk.
      destruct (decide (Name x = k)) as [<-|Hnk].
      * rewrite lookup_insert_eq in Hk. congruence.
      * rewrite lookup_insert_ne in Hk by exact Hnk. now apply (Hthis1 k).
    + intros alias name Hk. simpl in Hk. simpl.
      apply withAliases_lookup in Hk as [->|Hk].
      * rewrite lookup_insert_eq. eauto.
      * apply lookup_insert_is_Some.
        destruct (decide (Name x = name)); [now left|right].
        split; [assumption|]. now apply (Hthis2 alias).
  - rewrite !dom_insert_L, Hdom.
    assert (c ∈ dom (heap st)) by (apply elem_of_dom; eauto).
    assert (cmd ∈ dom (heap st)).
    { rewrite <- Hdom. apply elem_of_dom. eauto. }
    apply set_eq. intros b. rewrite !elem_of_union, !elem_of_singleton. split.
    + intros [->|[->|Hb]]; assumption.
    + intros Hb. right. now right.
Qed.

Lemma Command_Find_total (args : list string) :
  forall (a : addr) st,
    closedHeap (heap st) ->
    is_Some (heap st !! a) ->
    exists (b : addr) cb (consumed remaining : list string),
      Command_Find (Some a) args st = (Ok (Some b, remaining), st) /\
      heap st !! b = Some cb /\
      args = consumed ++ remaining /\
      match remaining with
      | [] => True
      | next :: _ => commands cb !! next = None /\ commandsAliases cb !! next = None
      end.
Proof.
  induction args as [|arg0 rest IH]; intros a st Hclosed [ca Ha].
  - exists a, ca, [], []. now repeat split.
  - cbn [Command_Find]. rewrite (bind_Ok _ _ _ _ _ (deref_Some _ _ _ Ha)).
    destruct (Hclosed a ca Ha) as [Hchildren Haliases].
    destruct (commands ca !! arg0) as [subCmd|] eqn:Hname.
    + destruct (IH subCmd st Hclosed (Hchildren arg0 subCmd Hname))
        as (b & cb & consumed & remaining & Hrun & Hb & Hsplit & Hmax).
      exists b, cb, (arg0 :: consumed), remaining.
      repeat split; try assumption. simpl. now rewrite Hsplit.
    + destruct (commandsAliases ca !! arg0) as [name|] eqn:Halias.
      * destruct (Haliases arg0 name Halias) as [subCmd Hsub]. rewrite Hsub.
        destruct (IH subCmd st Hclosed (Hchildren name subCmd Hsub))
          as (b & cb & consumed & remaining & Hrun & Hb & Hsplit & Hmax).
        exists b, cb, (arg0 :: consumed), remaining.
        repeat split; try assumption. simpl. now rewrite Hsplit.
      * exists a, ca, [], (arg0 :: rest). now repeat split.
Qed.

(** X5.  On a closed heap [Command.Find] never fails: from a command of the
    heap and for every token list it returns a command of the heap and a
    suffix of the tokens, changes nothing, and has gone down as far as it
    could: the first token left over is neither a name nor an alias of a
    child of the command returned. *)
Theorem Command_Find_closedHeap (args : list string) (a : addr) st :
  closedHeap (heap st) ->
  is_Some (heap st !! a) ->
  exists (b : addr) cb (consumed remaining : list string),
    Command_Find (Some a) args st = (Ok (Some b, remaining), st) /\
    heap st !! b = Some cb /\
    args = consumed ++ remaining /\
    match remaining with
    | [] => True
    | next :: _ => commands cb !! next = None /\ commandsAliases cb !! next = None
    end.
Proof. apply Command_Find_total. Qed.

(** ** What registration leaves alone *)

Lemma bind_frame {A B} (I : @State World -> Prop) (m : @M World A) (k : A -> @M World B) st :
  I (snd (m st)) ->
  (forall a, fst (m st) = Ok a -> I (snd (k a (snd (m st))))) ->
  I (snd (bind m k st)).
Proof.
  intros Hm Hk. unfold bind. destruct (m st) as [[a| |] st1]; simpl in *; auto.
Qed.

Lemma forEach_frame {A} (I : @State World -> Prop) (l : list A) (body : A -> @M World unit) :
  (forall item st, In item l -> I st -> I (snd (body item st))) ->
  forall st, I st -> I (snd (forEach l body st)).
Proof.
  induction l as [|item l IH]; intros Hbody st Hst; [exact Hst|].
  cbn [forEach]. apply bind_frame.
  - apply Hbody; [now left|exact Hst].
  - intros _ _. apply IH; [|apply Hbody; [now left|exact Hst]].
    intros y s Hy. apply Hbody. now right.
Qed.

Lemma deref_inv (p : option addr) st c st' :
  deref p st = (Ok c, st') -> st' = st /\ exists a, p = Some a /\ heap st !! a = Some c.
Proof.
  unfold deref. destruct p as [a|]; [|discriminate].
  destruct (heap st !! a) as [x|] eqn:Ha; [|discriminate].
  intros [= <- <-]. split; [reflexivity|]. now exists a.
Qed.

Lemma deref_state (p : option addr) st : snd (deref p st) = st.
Proof. unfold deref. destruct p as [a|]; [|reflexivity]. now destruct (heap st !! a). Qed.

Lemma deref_fst (a : addr) st c : fst (deref (Some a) st) = Ok c -> heap st !! a = Some c.
Proof. unfold deref. destruct (heap st !! a); simpl; congruence. Qed.

(** [SetFullPath] changes derived paths and nothing else, however it ends. *)
Lemma Command_SetFullPath_frame (fuel : nat) :
  forall (a : addr) st, samePaths st (snd (Command_SetFullPath fuel a st)).
Proof.
  induction fuel as [|d IH]; intros a st; [apply samePaths_refl|].
  cbn [Command_SetFullPath].
  apply bind_frame; [rewrite deref_state; apply samePaths_refl|].
  intros this Hthis. rewrite deref_state. apply deref_fst in Hthis.
  apply bind_frame.
  - destruct (String.eqb (fullPath this) ""); [|apply samePaths_refl].
    now apply samePaths_store.
  - intros _ _.
    apply forEach_frame.
    + intros [k subCmd] s _ Hs.
      apply bind_frame; [now rewrite deref_state|].
      intros this0 _. rewrite deref_state.
      apply bind_frame; [now rewrite deref_state|].
      intros sub Hsub. rewrite deref_state. apply deref_fst in Hsub.
      apply bind_frame.
      * eapply samePaths_trans; [exact Hs|]. now apply samePaths_store.
      * intros _ _. eapply samePaths_trans; [|apply IH].
        eapply samePaths_trans; [exact Hs|]. now apply samePaths_store.
    + destruct (String.eqb (fullPath this) ""); [|apply samePaths_refl].
      now apply samePaths_store.
Qed.

Lemma skeleton_erasePath c : skeleton (erasePath c) = skeleton c.
Proof. reflexivity. Qed.

Lemma samePaths_skeleton st st' :
  samePaths st st' -> skeleton <$> heap st = skeleton <$> heap st'.
Proof.
  intros (H & _). apply map_eq. intros a. rewrite !lookup_fmap.
  pose proof (erased_lookup _ _ a H) as Ha.
  destruct (heap st !! a) as [c|], (heap st' !! a) as [c'|]; simpl in *;
    try discriminate; [|reflexivity].
  apply (inj Some) in Ha. f_equal.
  now rewrite <- (skeleton_erasePath c), Ha.
Qed.

Lemma skeleton_lookup h h' (a : addr) c :
  skeleton <$> h = skeleton <$> h' ->
  h !! a = Some c ->
  exists c', h' !! a = Some c' /\ skeleton c' = skeleton c.
Proof.
  intros H Ha. assert ((skeleton <$> h) !! a = (skeleton <$> h') !! a) as Hl by now rewrite H.
  rewrite !lookup_fmap, Ha in Hl. destruct (h' !! a) as [c'|]; [|discriminate].
  exists c'. split; [reflexivity|]. simpl in Hl. congruence.
Qed.

Lemma skeleton_store_Handler h (a : addr) c (f : CommandHandler) :
  h !! a = Some c -> skeleton <$> <[a := set_Handler f c]> h = skeleton <$> h.
Proof.
  intros H. rewrite fmap_insert. apply insert_id. now rewrite lookup_fmap, H.
Qed.

Lemma closedHeap_skeleton h h' :
  skeleton <$> h = skeleton <$> h' -> closedHeap h -> closedHeap h'.
Proof.
  intros Heq Hclosed a c' Ha.
  destruct (skeleton_lookup h' h a c' (eq_sym Heq) Ha) as (c & Hc & Hsk).
  injection Hsk as _ _ _ Hcommands Haliases.
  destruct (Hclosed a c Hc) as [H1 H2]. split.
  - intros k s Hk. rewrite <- Hcommands in Hk. destruct (H1 k s Hk) as [x Hx].
    destruct (skeleton_lookup h h' s x Heq Hx) as (x' & Hx' & _). now exists x'.
  - intros alias name Hk. rewrite <- Haliases in Hk. rewrite <- Hcommands.
    now apply (H2 alias).
Qed.

(** What [Register] never does, however it ends: it neither adds nor removes
    a command, it changes no name, parent, alias list, child map or alias map
    of any command, it leaves the world alone, and every entry of the flat
    index afterwards is an entry from before or the command handed in. *)
Lemma CommandRegistry_Register_frame (fuel : nat) (cmd : addr) mws st :
  let st' := snd (CommandRegistry_Register fuel cmd mws st) in
  skeleton <$> heap st' = skeleton <$> heap st /\
  world st' = world st /\
  (forall k a, registry st' !! k = Some a ->
               registry st !! k = Some a \/ (a = cmd /\ is_Some (heap st !! cmd))).
Proof.
  cbv zeta.
  set (I := fun s : @State World =>
              skeleton <$> heap s = skeleton <$> heap st /\ world s = world st /\
              (forall k a, registry s !! k = Some a ->
                           registry st !! k = Some a \/ (a = cmd /\ is_Some (heap st !! cmd)))).
  assert (I st) as Hst by (repeat split; auto).
  assert (forall s lvl msg, I s -> I (snd (logger lvl msg s))) as Hlog.
  { intros s lvl msg Hs. exact Hs. }
  assert (forall s (a : addr) ms, I s -> I (snd (CommandRegistry_registerMiddleware a ms s)))
    as Hmw.
  { intros s a ms (Hs1 & Hs2 & Hs3). unfold CommandRegistry_registerMiddleware.
    apply bind_frame; [rewrite deref_state; now repeat split|].
    intros c0 _. rewrite deref_state.
    apply bind_frame; [rewrite deref_state; now repeat split|].
    intros c1 Hc1. rewrite deref_state. apply deref_fst in Hc1.
    split; [|now split]. simpl. now rewrite skeleton_store_Handler. }
  change (I (snd (CommandRegistry_Register fuel cmd mws st))).
  unfold CommandRegistry_Register.
  apply bind_frame; [now rewrite deref_state|].
  intros c Hc. rewrite deref_state. apply deref_fst in Hc.
  apply bind_frame; [exact Hst|]. intros r _. simpl.
  destruct (r !! Name c); [exact Hst|].
  assert (I (snd (Command_SetFullPath fuel cmd st))) as Hset.
  { pose proof (Command_SetFullPath_frame fuel cmd st) as Hsame.
    pose proof (samePaths_skeleton _ _ Hsame) as Hsk.
    destruct Hsame as (_ & Hreg & _ & Hw).
    split; [now symmetry|]. split; [now symmetry|].
    intros k a Hk. left. now rewrite Hreg. }
  apply bind_frame; [exact Hset|]. intros _ _.
  apply bind_frame; [now apply Hlog|]. intros _ _.
  apply bind_frame; [now apply Hlog, Hlog|]. intros _ _.
  apply bind_frame; [now apply Hmw, Hlog, Hlog|]. intros _ _.
  apply bind_frame; [rewrite deref_state; now apply Hmw, Hlog, Hlog|].
  intros c1 _. rewrite deref_state.
  assert (forall s, I s -> I (snd (forEach (map_to_list (commands c1))
            (fun '(_, subCmd) => CommandRegistry_registerMiddleware subCmd mws) s))) as Hloop.
  { intros s Hs. apply forEach_frame; [|exact Hs].
    intros [k subCmd] s0 _ Hs0. now apply Hmw. }
  apply bind_frame; [now apply Hloop, Hmw, Hlog, Hlog|]. intros _ _.
  assert (forall s, I s -> I (snd (CommandRegistry_registerCommandWithAlias cmd s))) as Hreg.
  { intros s Hs. unfold CommandRegistry_registerCommandWithAlias.
    apply bind_frame; [now rewrite deref_state|].
    intros c2 _. rewrite deref_state.
    assert (forall s0 key, I s0 ->
              I (snd (putRegistry (<[key := cmd]> (registry s0)) s0))) as Hput.
    { intros s0 key (H1 & H2 & H3). split; [exact H1|]. split; [exact H2|].
      intros k0 a Hk0. simpl in Hk0.
      destruct (decide (key = k0)) as [->|Hne].
      - rewrite lookup_insert_eq in Hk0. injection Hk0 as <-. right.
        split; [reflexivity|]. now exists c.
      - rewrite lookup_insert_ne in Hk0 by exact Hne. now apply H3. }
    apply bind_frame; [exact Hs|]. intros r0 Hr0. simpl in Hr0. injection Hr0 as <-.
    change (snd (getRegistry s)) with s.
    apply bind_frame; [exact (Hput s (Name c2) Hs)|]. intros _ _.
    apply forEach_frame; [|exact (Hput s (Name c2) Hs)].
    intros alias s0 _ Hs0. exact (Hput s0 alias Hs0). }
  apply bind_frame; [now apply Hreg, Hloop, Hmw, Hlog, Hlog|]. intros _ _.
  apply bind_frame; [now apply Hlog, Hreg, Hloop, Hmw, Hlog, Hlog|]. intros _ _.
  now apply Hlog, Hreg, Hloop, Hmw, Hlog, Hlog.
Qed.

Lemma Register_keeps_wellFormed (fuel : nat) (cmd : addr) mws st :
  wellFormed st -> wellFormed (snd (CommandRegistry_Register fuel cmd mws st)).
Proof.
  intros [Hclosed Hreg].
  destruct (CommandRegistry_Register_frame fuel cmd mws st) as (Hsk & _ & Hr).
  split.
  - eapply closedHeap_skeleton; [symmetry; exact Hsk|exact Hclosed].
  - intros k a Hk.
    assert (is_Some (heap st !! a)) as [x Hx].
    { destruct (Hr k a Hk) as [Hold|[-> Hin]]; [now apply (Hreg k)|exact Hin]. }
    destruct (skeleton_lookup _ _ a x (eq_sym Hsk) Hx) as (x' & Hx' & _). now exists x'.
Qed.

(** X6.  [Register] keeps the state well formed, whatever it is given and
    however it ends: afterwards every child pointer still leads to a command
    of the heap, every child alias still names a child, and every entry of
    the flat index leads to a command of the heap. *)
Theorem CommandRegistry_Register_wellFormed (fuel : nat) (cmd : addr) mws st :
  wellFormed st -> wellFormed (snd (CommandRegistry_Register fuel cmd mws st)).
Proof. apply Register_keeps_wellFormed. Qed.

(** ** The flat index after a registration *)

Lemma bind_Ok_inv {A B} (m : @M World A) (k : A -> @M World B) st (b : B) st' :
  bind m k st = (Ok b, st') ->
  exists a st1, m st = (Ok a, st1) /\ k a st1 = (Ok b, st').
Proof.
  unfold bind. destruct (m st) as [[a| |] st1]; try discriminate.
  intros H. now exists a, st1.
Qed.

Lemma registerAliases_run (cmd : addr) (aliases : list string) :
  forall st,
    forEach aliases (fun alias =>
      bind getRegistry (fun r => putRegistry (<[alias := cmd]> r))) st =
    (Ok tt, set_registry (foldl (fun r alias => <[alias := cmd]> r) (registry st) aliases) st).
Proof.
  induction aliases as [|alias aliases IH]; intros st.
  - simpl. unfold ret. now destruct st.
  - cbn [forEach]. unfold bind at 1. cbn beta. unfold bind at 1.
    unfold getRegistry at 1, putRegistry at 1. cbn iota beta.
    now rewrite IH.
Qed.

Lemma registerCommandWithAlias_closed_form (cmd : addr) c st :
  heap st !! cmd = Some c ->
  CommandRegistry_registerCommandWithAlias cmd st =
    (Ok tt, set_registry (foldl (fun r alias => <[alias := cmd]> r)
                                (<[Name c := cmd]> (registry st)) (Aliases c)) st).
Proof.
  intros H. unfold CommandRegistry_registerCommandWithAlias.
  rewrite (bind_Ok _ _ _ _ _ (deref_Some _ _ _ H)).
  unfold bind at 1. unfold getRegistry at 1. cbn iota beta.
  unfold bind at 1. unfold putRegistry at 1. cbn iota beta.
  now rewrite registerAliases_run.
Qed.

Lemma indexed_member (cmd : addr) (aliases : list string) :
  forall (r : gmap string addr) (k : string),
    In k aliases -> foldl (fun r alias => <[alias := cmd]> r) r aliases !! k = Some cmd.
Proof.
  induction aliases as [|a aliases IH] using rev_ind; intros r k Hin; [destruct Hin|].
  rewrite foldl_app. simpl. apply in_app_or in Hin as [Hin|[->|[]]].
  - destruct (decide (a = k)) as [->|Hne]; [apply lookup_insert_eq|].
    rewrite lookup_insert_ne by exact Hne. now apply IH.
  - apply lookup_insert_eq.
Qed.

Lemma indexed_other (cmd : addr) (aliases : list string) :
  forall (r : gmap string addr) (k : string),
    ~ In k aliases -> foldl (fun r alias => <[alias := cmd]> r) r aliases !! k = r !! k.
Proof.
  induction aliases as [|a aliases IH]; intros r k Hnot; [reflexivity|].
  simpl. rewrite IH by (intros H; apply Hnot; now right).
  apply lookup_insert_ne. intros ->. apply Hnot. now left.
Qed.

Lemma registerMiddleware_frame (a : addr) mws st :
  let st' := snd (CommandRegistry_registerMiddleware a mws st) in
  skeleton <$> heap st' = skeleton <$> heap st /\ registry st' = registry st.
Proof.
  cbv zeta. unfold CommandRegistry_registerMiddleware.
  apply (bind_frame (fun s => skeleton <$> heap s = skeleton <$> heap st /\
                              registry s = registry st));
    [now rewrite deref_state|].
  intros c0 _. rewrite deref_state.
  apply bind_frame; [now rewrite deref_state|].
  intros c1 Hc1. rewrite deref_state. apply deref_fst in Hc1.
  split; [|reflexivity]. simpl. now rewrite skeleton_store_Handler.
Qed.

(** A registration that returns, traced up to its result. *)
Lemma Register_index (fuel : nat) (cmd p : addr) mws c st st' :
  CommandRegistry_Register fuel cmd mws st = (Ok p, st') ->
  heap st !! cmd = Some c ->
  registry st !! Name c = None ->
  p = cmd /\
  registry st' = foldl (fun r alias => <[alias := cmd]> r)
                       (<[Name c := cmd]> (registry st)) (Aliases c) /\
  skeleton <$> heap st' = skeleton <$> heap st.
Proof.
  intros Hrun Hc Hfresh. unfold CommandRegistry_Register in Hrun.
  rewrite (bind_Ok _ _ _ _ _ (deref_Some _ _ _ Hc)) in Hrun.
  unfold bind at 1 in Hrun. unfold getRegistry at 1 in Hrun. rewrite Hfresh in Hrun.
  apply bind_Ok_inv in Hrun as ([] & s1 & Hset & Hrun).
  rewrite !logger_run in Hrun.
  apply bind_Ok_inv in Hrun as ([] & s2 & Hmw & Hrun).
  apply bind_Ok_inv in Hrun as (c1 & s2' & Hd & Hrun).
  apply deref_inv in Hd as (-> & _).
  apply bind_Ok_inv in Hrun as ([] & s3 & Hloop & Hrun).
  apply bind_Ok_inv in Hrun as ([] & s4 & Hreg & Hrun).
  rewrite logger_run in Hrun. unfold ret in Hrun. injection Hrun as <- <-.
  set (J := fun s : @State World =>
              skeleton <$> heap s = skeleton <$> heap st /\ registry s = registry st).
  assert (J s1) as H1.
  { pose proof (Command_SetFullPath_frame fuel cmd st) as Hsame.
    rewrite Hset in Hsame. simpl in Hsame.
    split; [symmetry; now apply samePaths_skeleton|]. now destruct Hsame as (_ & <- & _). }
  assert (forall s (a : addr), J s -> J (snd (CommandRegistry_registerMiddleware a mws s)))
    as Hstep.
  { intros s a [Hs1 Hs2].
    destruct (registerMiddleware_frame a mws s) as [Hf1 Hf2].
    split; congruence. }
  assert (J s2) as H2.
  { match type of Hmw with ?m ?s = _ => pose proof (Hstep s cmd H1) as Hj end.
    now rewrite Hmw in Hj. }
  assert (J s3) as H3.
  { pose proof (forEach_frame J (map_to_list (commands c1))
                 (fun '(_, subCmd) => CommandRegistry_registerMiddleware subCmd mws)) as Hf.
    specialize (Hf (fun kv s _ Hs => match kv with (_, subCmd) => Hstep s subCmd Hs end) s2 H2).
    now rewrite Hloop in Hf. }
  destruct H3 as [Hsk3 Hreg3].
  destruct (skeleton_lookup _ _ cmd c (eq_sym Hsk3) Hc) as (c3 & Hc3 & Hskc).
  rewrite (registerCommandWithAlias_closed_form cmd c3 s3 Hc3) in Hreg.
  injection Hreg as <-. injection Hskc as Hname _ Haliases _ _.
  split; [reflexivity|]. split; [|exact Hsk3].
  simpl. now rewrite Hreg3, Hname, Haliases.
Qed.

(** X7.  A registration that goes through puts the command into the flat
    index under its name and under every one of its aliases, and changes no
    other entry.  Only the name is tested beforehand: an alias that was
    already in the index, as the name or an alias of another command, is
    taken over without notice. *)
Theorem CommandRegistry_Register_index (fuel : nat) (cmd p : addr) mws c st st' :
  CommandRegistry_Register fuel cmd mws st = (Ok p, st') ->
  heap st !! cmd = Some c ->
  registry st !! Name c = None ->
  p = cmd /\
  (forall k, k = Name c \/ In k (Aliases c) -> registry st' !! k = Some cmd) /\
  (forall k, k <> Name c -> ~ In k (Aliases c) -> registry st' !! k = registry st !! k).
Proof.
  intros Hrun Hc Hfresh.
  destruct (Register_index fuel cmd p mws c st st' Hrun Hc Hfresh) as (-> & Hreg & _).
  split; [reflexivity|]. rewrite Hreg. split.
  - intros k Hk. destruct (in_dec String.string_dec k (Aliases c)) as [Hin|Hnot].
    + now apply indexed_member.
    + rewrite indexed_other by exact Hnot.
      destruct Hk as [->|Hin]; [apply lookup_insert_eq|contradiction].
  - intros k Hne Hnot. rewrite indexed_other by exact Hnot.
    now rewrite lookup_insert_ne by congruence.
Qed.

Lemma Command_Find_logs (args : list string) :
  forall (o : option addr) st (l : list LogRecord),
    fst (Command_Find o args (set_logs l st)) = fst (Command_Find o args st).
Proof.
  induction args as [|arg0 rest IH]; intros o st l; [reflexivity|].
  cbn [Command_Find]. unfold bind, deref. destruct o as [a|]; [|reflexivity].
  change (heap (set_logs l st)) with (heap st).
  destruct (heap st !! a) as [this|]; [|reflexivity].
  destruct (commands this !! arg0); [apply IH|].
  destruct (commandsAliases this !! arg0); [apply IH|reflexivity].
Qed.

Lemma CommandRegistry_Find_registered (k : string) (rest : list string) (cmd : addr) st :
  wellFormed st ->
  registry st !! k = Some cmd ->
  exists (b : addr) cb (remaining : list string),
    Command_Find (Some cmd) rest st = (Ok (Some b, remaining), st) /\
    heap st !! b = Some cb /\
    CommandRegistry_Find (k :: rest) st =
      (Ok (Some b, remaining),
       set_logs (logs st ++ [(LevelDebug, msgFind);
                             (LevelDebug, "[engine] command registry found command")]) st).
Proof.
  intros [Hclosed Hreg] Hk.
  destruct (Command_Find_total rest cmd st Hclosed (Hreg k cmd Hk))
    as (b & cb & consumed & remaining & Hfind & Hb & _ & _).
  exists b, cb, remaining. split; [exact Hfind|]. split; [exact Hb|].
  unfold CommandRegistry_Find. rewrite logger_run.
  unfold bind at 1. unfold getRegistry at 1. cbn iota beta.
  change (registry (set_logs _ st)) with (registry st). rewrite Hk.
  set (st1 := set_logs _ st).
  assert (closedHeap (heap st1)) as Hclosed1 by exact Hclosed.
  assert (is_Some (heap st1 !! cmd)) as Hin by exact (Hreg k cmd Hk).
  destruct (Command_Find_total rest cmd st1 Hclosed1 Hin)
    as (b1 & cb1 & consumed1 & remaining1 & Hfind1 & Hb1 & _ & _).
  pose proof (Command_Find_logs rest (Some cmd) st
                (logs st ++ [(LevelDebug, msgFind)])) as Hsame.
  fold st1 in Hsame.
  rewrite Hfind, Hfind1 in Hsame. simpl in Hsame. injection Hsame as -> ->.
  rewrite (bind_Ok _ _ _ _ _ Hfind1).
  rewrite (bind_Ok _ _ _ _ _ (deref_Some _ _ _ Hb1)). rewrite logger_run.
  unfold ret, st1, set_logs. simpl. now rewrite <- app_assoc.
Qed.

(** X8.  Round trip through the registry: after a registration that went
    through on a well-formed state, [Find] on a token list that starts with
    the name of the command, or with any of its aliases, returns what
    [Command.Find] returns from that command on the rest of the tokens, and
    that is a command of the heap. *)
Theorem CommandRegistry_Register_then_Find
    (fuel : nat) (cmd p : addr) mws c st st' (k : string) (rest : list string) :
  wellFormed st ->
  CommandRegistry_Register fuel cmd mws st = (Ok p, st') ->
  heap st !! cmd = Some c ->
  registry st !! Name c = None ->
  k = Name c \/ In k (Aliases c) ->
  exists (b : addr) (remaining : list string),
    fst (CommandRegistry_Find (k :: rest) st') = Ok (Some b, remaining) /\
    fst (Command_Find (Some cmd) rest st') = Ok (Some b, remaining) /\
    is_Some (heap st' !! b).
Proof.
  intros Hwf Hrun Hc Hfresh Hk.
  pose proof (Register_keeps_wellFormed fuel cmd mws st Hwf) as Hwf'.
  rewrite Hrun in Hwf'. simpl in Hwf'.
  destruct (Register_index fuel cmd p mws c st st' Hrun Hc Hfresh) as (-> & Hreg & _).
  assert (registry st' !! k = Some cmd) as Hindex.
  { rewrite Hreg. destruct (in_dec String.string_dec k (Aliases c)) as [Hin|Hnot].
    - now apply indexed_member.
    - rewrite indexed_other by exact Hnot.
      destruct Hk as [->|Hin]; [apply lookup_insert_eq|contradiction]. }
  destruct (CommandRegistry_Find_registered k rest cmd st' Hwf' Hindex)
    as (b & cb & remaining & Hfind & Hb & Hrfind).
  exists b, remaining. rewrite Hrfind, Hfind. simpl. eauto.
Qed.

(** ** The event processor on well-formed states *)

(** On a well-formed state the registry method returns for every token
    list, and a command it returns is in the heap. *)
Lemma CommandRegistry_Find_wellFormed (args : list string) st :
  wellFormed st ->
  exists (found : option addr) (remaining : list string) st',
    CommandRegistry_Find args st = (Ok (found, remaining), st') /\
    heap st' = heap st /\ world st' = world st /\
    match found with
    | Some b => is_Some (heap st !! b)
    | None => True
    end.
Proof.
  intros Hwf. destruct args as [|k rest].
  - eexists None, [], _. split; [reflexivity|]. now repeat split.
  - destruct (registry st !! k) as [cmd|] eqn:Hk.
    + destruct (CommandRegistry_Find_registered k rest cmd st Hwf Hk)
        as (b & cb & remaining & _ & Hb & Hrun).
      exists (Some b), remaining. eexists. split; [exact Hrun|].
      repeat split. now exists cb.
    + exists None, (k :: rest). eexists.
      split; [now apply CommandRegistry_Find_unregistered|]. now repeat split.
Qed.

Lemma Process_on_text (ctx : bool) (e : Event) (text : string) st :
  dataLookup e "text" = AnyString text ->
  wellFormed st ->
  (exists resp st', EventProcessor_Process ctx e st = (Ok resp, st')) \/
  (exists (b : addr) cb st1 (remaining : list string),
     heap st !! b = Some cb /\ world st1 = world st /\
     EventProcessor_Process ctx e st =
       bind (callHandler (Handler cb)
                         (mkContext ctx e zeroResponse (Event_Session e) (Some b)) remaining)
            (fun returned =>
               let '(resp, err) := returned in
               match err with
               | Some msg => ret (mkResponse ResponseTypeError (AnyString msg) None)
               | None => ret resp
               end) st1).
Proof.
  intros Htext Hwf. unfold EventProcessor_Process.
  rewrite logger_run, Htext.
  change (bind (assertString (AnyString text)) ?k ?s) with (k text s). cbn beta.
  destruct (Nat.eqb (length (ParseCommand text)) 0).
  - left. rewrite logger_run. unfold ret. eauto.
  - rewrite logger_run.
    match goal with |- context [bind (CommandRegistry_Find ?a) _ ?s] =>
      destruct (CommandRegistry_Find_wellFormed a s Hwf)
        as (found & remaining & st1 & Hfind & Hheap & Hworld & Hfound);
      rewrite (bind_Ok _ _ _ _ _ Hfind)
    end.
    destruct found as [b|].
    + right. destruct Hfound as [cb Hb]. simpl in Hb.
      exists b, cb, st1, remaining. split; [exact Hb|]. split; [exact Hworld|].
      assert (heap st1 !! b = Some cb) as Hb1 by (rewrite Hheap; exact Hb).
      cbn iota beta.
      now rewrite (bind_Ok _ _ _ _ _ (deref_Some _ _ _ Hb1)).
    + left. cbn iota beta. rewrite logger_run. unfold ret. eauto.
Qed.

(** X9.  On a well-formed state and for an event whose text is a string,
    [Process] itself never panics: if the call does not return a response,
    the panic is the call of a nil handler or was raised inside the handler
    of the command that was found.  In particular the lookup never reaches a
    nil or dangling command. *)
Theorem EventProcessor_Process_safe (ctx : bool) (e : Event) (text : string) st :
  dataLookup e "text" = AnyString text ->
  wellFormed st ->
  match fst (EventProcessor_Process ctx e st) with
  | Ok _ => True
  | Panic PanicNilFunc => True
  | Panic (PanicInHandler _) => True
  | _ => False
  end.
Proof.
  intros Htext Hwf.
  destruct (Process_on_text ctx e text st Htext Hwf)
    as [(resp & st' & ->)|(b & cb & st1 & remaining & _ & _ & ->)]; [exact I|].
  unfold bind, callHandler. destruct (Handler cb) as [f|]; [|exact I].
  destruct (f _ _ _) as [w resp [msg|]|msg]; exact I.
Qed.

(** X10.  If moreover every command of the heap has a handler and no handler
    panics, [Process] returns a response for every such event: a failure of
    the lookup or of the handler comes back as a response, not as a panic. *)
Theorem EventProcessor_Process_returns (ctx : bool) (e : Event) (text : string) st :
  dataLookup e "text" = AnyString text ->
  wellFormed st ->
  handlersReturn (heap st) ->
  exists resp st', EventProcessor_Process ctx e st = (Ok resp, st').
Proof.
  intros Htext Hwf Hhandlers.
  destruct (Process_on_text ctx e text st Htext Hwf)
    as [Hdone|(b & cb & st1 & remaining & Hb & _ & ->)]; [exact Hdone|].
  destruct (Hhandlers b cb Hb) as (f & Hf & Hret).
  unfold bind, callHandler. rewrite Hf.
  destruct (Hret (mkContext ctx e zeroResponse (Event_Session e) (Some b)) remaining (world st1))
    as (w' & resp & err & ->).
  destruct err as [msg|]; unfold ret; eauto.
Qed.

(** ** Cycles *)

Lemma forEach_Ok_member {A} (I : @State World -> Prop) (l : list A)
    (body : A -> @M World unit) :
  (forall item st, In item l -> I st -> I (snd (body item st))) ->
  forall st st' item,
    I st -> forEach l body st = (Ok tt, st') -> In item l ->
    exists st0, I st0 /\ fst (body item st0) = Ok tt.
Proof.
  induction l as [|y l IH]; intros Hbody st st' item Hst Hrun Hin; [destruct Hin|].
  cbn [forEach] in Hrun. apply bind_Ok_inv in Hrun as ([] & st1 & Hy & Hrest).
  destruct Hin as [->|Hin].
  - exists st. split; [exact Hst|]. now rewrite Hy.
  - apply (IH (fun z s Hz => Hbody z s (or_intror Hz)) st1 st' item); try assumption.
    pose proof (Hbody y st (or_introl eq_refl) Hst) as H. now rewrite Hy in H.
Qed.

Lemma SetFullPath_self_child (fuel : nat) :
  forall (a : addr) c (k : string) st,
    heap st !! a = Some c ->
    commands c !! k = Some a ->
    fst (Command_SetFullPath fuel a st) <> Ok tt.
Proof.
  induction fuel as [|d IH]; intros a c k st Ha Hk Hrun; [discriminate|].
  destruct (Command_SetFullPath (S d) a st) as [o st'] eqn:Heq. simpl in Hrun. subst o.
  cbn [Command_SetFullPath] in Heq.
  rewrite (bind_Ok _ _ _ _ _ (deref_Some _ _ _ Ha)) in Heq.
  apply bind_Ok_inv in Heq as ([] & st1 & Hfirst & Hloop).
  assert (samePaths st st1) as Hsame.
  { destruct (String.eqb (fullPath c) "").
    - unfold store in Hfirst. injection Hfirst as <-. now apply samePaths_store.
    - unfold ret in Hfirst. injection Hfirst as <-. apply samePaths_refl. }
  assert (forall s, samePaths st s ->
            exists c', heap s !! a = Some c' /\ commands c' = commands c) as Hkeep.
  { intros s Hs. pose proof (samePaths_skeleton _ _ Hs) as Hsk.
    destruct (skeleton_lookup _ _ a c Hsk Ha) as (c' & Hc' & Hskc).
    exists c'. split; [exact Hc'|]. now injection Hskc. }
  match type of Hloop with forEach ?l ?b _ = _ =>
    assert (forall item s, In item l -> samePaths st s -> samePaths st (snd (b item s)))
      as Hframe
  end.
  { intros [k0 subCmd] s _ Hs.
    apply bind_frame; [now rewrite deref_state|].
    intros this0 _. rewrite deref_state.
    apply bind_frame; [now rewrite deref_state|].
    intros sub Hsub. rewrite deref_state. apply deref_fst in Hsub.
    apply bind_frame.
    - eapply samePaths_trans; [exact Hs|]. now apply samePaths_store.
    - intros _ _. eapply samePaths_trans; [|apply Command_SetFullPath_frame].
      eapply samePaths_trans; [exact Hs|]. now apply samePaths_store. }
  destruct (forEach_Ok_member (fun s => samePaths st s) _ _ Hframe
             st1 st' (k, a) Hsame Hloop) as (s0 & Hs0 & Hbody).
  { apply list_elem_of_In, elem_of_map_to_list. exact Hk. }
  destruct (Hkeep s0 Hs0) as (c0 & Hc0 & Hcommands).
  cbn beta iota in Hbody.
  rewrite (bind_Ok _ _ _ _ _ (deref_Some _ _ _ Hc0)) in Hbody.
  rewrite (bind_Ok _ _ _ _ _ (deref_Some _ _ _ Hc0)) in Hbody.
  unfold bind at 1 in Hbody. unfold store at 1 in Hbody. cbn iota beta in Hbody.
  revert Hbody. eapply IH.
  - simpl. apply lookup_insert_eq.
  - simpl. rewrite Hcommands. exact Hk.
Qed.

(** X11.  Nothing keeps a command from being attached below itself, and then
    the walk of [SetFullPath] has no end: for a command that is one of its
    own children neither [SetFullPath] nor a first [Register] returns,
    whatever fuel the recursion is given. *)
Theorem CommandRegistry_Register_self_child
    (fuel : nat) (cmd : addr) mws c (k : string) st :
  heap st !! cmd = Some c ->
  commands c !! k = Some cmd ->
  registry st !! Name c = None ->
  (forall p, fst (CommandRegistry_Register fuel cmd mws st) <> Ok p) /\
  fst (Command_SetFullPath fuel cmd st) <> Ok tt.
Proof.
  intros Hc Hk Hfresh. split; [|now apply (SetFullPath_self_child fuel cmd c k)].
  intros p Hrun.
  destruct (CommandRegistry_Register fuel cmd mws st) as [o st'] eqn:Heq.
  simpl in Hrun. subst o. unfold CommandRegistry_Register in Heq.
  rewrite (bind_Ok _ _ _ _ _ (deref_Some _ _ _ Hc)) in Heq.
  unfold bind at 1 in Heq. unfold getRegistry at 1 in Heq. rewrite Hfresh in Heq.
  apply bind_Ok_inv in Heq as ([] & s1 & Hset & _).
  apply (SetFullPath_self_child fuel cmd c k st Hc Hk). now rewrite Hset.
Qed.

(** ** Middlewares compose *)

Lemma applyMiddlewares_app mws1 mws2 (handler : @CommandHandler World) :
  applyMiddlewares (mws1 ++ mws2) handler =
    applyMiddlewares mws1 (applyMiddlewares mws2 handler).
Proof. unfold applyMiddlewares. apply foldr_app. Qed.

(** X12.  Wrapping composes: [registerMiddleware] with one list and then
    with a second one leaves the state that a single [registerMiddleware]
    with the second list followed by the first leaves; the middlewares of
    the later call end up outermost.  On a command that is not in
    the heap both panic alike. *)
Theorem CommandRegistry_registerMiddleware_twice (cmd : addr) mws1 mws2 st :
  bind (CommandRegistry_registerMiddleware cmd mws2)
       (fun _ => CommandRegistry_registerMiddleware cmd mws1) st =
  CommandRegistry_registerMiddleware cmd (mws1 ++ mws2) st.
Proof.
  destruct (heap st !! cmd) as [c|] eqn:Hc.
  - rewrite (bind_Ok _ _ _ _ _ (CommandRegistry_registerMiddleware_run cmd mws2 c st Hc)).
    rewrite (CommandRegistry_registerMiddleware_run cmd mws1
               (set_Handler (applyMiddlewares mws2 (Handler c)) c));
      [|apply lookup_insert_eq].
    rewrite (CommandRegistry_registerMiddleware_run cmd (mws1 ++ mws2) c st Hc).
    unfold set_heap. simpl. now rewrite insert_insert_eq, applyMiddlewares_app.
  - unfold CommandRegistry_registerMiddleware, bind, deref. now rewrite Hc.
Qed.

(** ** The direct children *)

Lemma samePaths_Handler st st' (a : addr) x :
  samePaths st st' -> heap st !! a = Some x ->
  exists x', heap st' !! a = Some x' /\ Handler x' = Handler x /\ commands x' = commands x.
Proof.
  intros (H & _) Hx. pose proof (erased_lookup _ _ a H) as Ha. rewrite Hx in Ha.
  destruct (heap st' !! a) as [x'|]; [|discriminate].
  apply (inj Some) in Ha. apply erasePath_fields in Ha as (_ & _ & Hh & Hc & _).
  exists x'. now repeat split.
Qed.

(** The loop of [Register] over the children, when no child occurs twice. *)
Lemma wrap_children_run mws (l : list (string * addr)) :
  forall st,
    NoDup (map snd l) ->
    (forall kv, In kv l -> is_Some (heap st !! snd kv)) ->
    exists st',
      forEach l (fun '(_, subCmd) => CommandRegistry_registerMiddleware subCmd mws) st =
        (Ok tt, st') /\
      forall (a : addr) x,
        heap st !! a = Some x ->
        exists x', heap st' !! a = Some x' /\
                   (In a (map snd l) -> Handler x' = applyMiddlewares mws (Handler x)) /\
                   (~ In a (map snd l) -> Handler x' = Handler x).
Proof.
  induction l as [|[k sub] l IH]; intros st Hnodup Hin.
  - exists st. split; [reflexivity|]. intros a x Hx. exists x.
    split; [exact Hx|]. split; [intros []|reflexivity].
  - apply NoDup_cons in Hnodup as [Hfresh Hnodup]. simpl in Hfresh.
    rewrite list_elem_of_In in Hfresh.
    destruct (Hin (k, sub) (or_introl eq_refl)) as [xs Hxs]. simpl in Hxs.
    cbn [forEach].
    rewrite (bind_Ok _ _ _ _ _ (CommandRegistry_registerMiddleware_run sub mws xs st Hxs)).
    set (st1 := set_heap _ st).
    destruct (IH st1 Hnodup) as (st' & Hrun & Hafter).
    { intros kv Hkv. unfold st1. simpl. apply lookup_insert_is_Some.
      destruct (decide (sub = snd kv)); [now left|right].
      split; [assumption|]. apply Hin. now right. }
    exists st'. split; [exact Hrun|]. intros a x Hx.
    destruct (decide (sub = a)) as [->|Hne].
    + destruct (Hafter a (set_Handler (applyMiddlewares mws (Handler xs)) xs))
        as (x' & Hx' & _ & Hh); [apply lookup_insert_eq|].
      exists x'. split; [exact Hx'|]. split.
      * intros _. rewrite (Hh Hfresh). simpl. congruence.
      * intros Hnot. exfalso. apply Hnot. now left.
    + destruct (Hafter a x) as (x' & Hx' & Hh1 & Hh2).
      { unfold st1. simpl. now rewrite lookup_insert_ne. }
      exists x'. split; [exact Hx'|]. split.
      * intros [Heq|Hl]; [simpl in Heq; contradiction|now apply Hh1].
      * intros Hnot. apply Hh2. intros Hl. apply Hnot. now right.
Qed.

(** X13.  What [Register] does for the direct children: for a command that
    is not yet in the flat index, whose subtree is a tree of depth at most
    [fuel] and whose children are pairwise different commands, the call
    returns and every direct child ends up with its old handler wrapped,
    once, in the middlewares. *)
Theorem CommandRegistry_Register_wraps_children (fuel : nat) (cmd : addr) mws c st :
  heap st !! cmd = Some c ->
  registry st !! Name c = None ->
  treeWithin (heap st) fuel cmd = true ->
  NoDup (map snd (map_to_list (commands c))) ->
  exists st',
    CommandRegistry_Register fuel cmd mws st = (Ok cmd, st') /\
    forall (k : string) (sub : addr) x,
      commands c !! k = Some sub ->
      heap st !! sub = Some x ->
      exists x', heap st' !! sub = Some x' /\
                 Handler x' = applyMiddlewares mws (Handler x).
Proof.
  intros Hc Hfresh Ht Hnodup.
  destruct (CommandRegistry_Register_returns fuel cmd mws c st Hc Hfresh Ht)
    as (st' & c' & Hrun & _).
  exists st'. split; [exact Hrun|]. intros k sub x Hk Hx.
  unfold CommandRegistry_Register in Hrun.
  rewrite (bind_Ok _ _ _ _ _ (deref_Some _ _ _ Hc)) in Hrun.
  unfold bind at 1 in Hrun. unfold getRegistry at 1 in Hrun. rewrite Hfresh in Hrun.
  apply bind_Ok_inv in Hrun as ([] & s1 & Hset & Hrun).
  rewrite !logger_run in Hrun.
  pose proof (Command_SetFullPath_frame fuel cmd st) as Hsame.
  rewrite Hset in Hsame. simpl in Hsame.
  destruct (samePaths_Handler _ _ cmd c Hsame Hc) as (c1 & Hc1 & _ & Hcommands).
  destruct (samePaths_Handler _ _ sub x Hsame Hx) as (x1 & Hx1 & Hh1 & _).
  match type of Hrun with bind _ _ ?s = _ => set (s1' := s) in * end.
  rewrite (bind_Ok _ _ _ _ _ (CommandRegistry_registerMiddleware_run cmd mws c1 s1' Hc1))
    in Hrun.
  match type of Hrun with bind _ _ ?s = _ => set (s2 := s) in * end.
  assert (heap s2 !! cmd = Some (set_Handler (applyMiddlewares mws (Handler c1)) c1)) as Hc2
    by apply lookup_insert_eq.
  rewrite (bind_Ok _ _ _ _ _ (deref_Some _ _ _ Hc2)) in Hrun.
  change (commands (set_Handler (applyMiddlewares mws (Handler c1)) c1))
    with (commands c1) in Hrun.
  rewrite Hcommands in Hrun.
  assert (sub <> cmd) as Hne.
  { intros ->. exact (treeWithin_irreflexive _ _ _ _ _ Ht Hc Hk). }
  assert (heap s2 !! sub = Some x1) as Hx2.
  { unfold s2. simpl. rewrite lookup_insert_ne by congruence. exact Hx1. }
  destruct (wrap_children_run mws (map_to_list (commands c)) s2 Hnodup)
    as (s3 & Hloop & Hafter).
  { intros [k0 sub0] Hin. simpl.
    apply list_elem_of_In, elem_of_map_to_list in Hin.
    destruct fuel as [|d]; [discriminate|].
    assert (treeWithin (heap st) d sub0 = true) as Hsub0.
    { apply (treeWithin_children _ _ _ _ Ht Hc (k0, sub0)).
      apply list_elem_of_In, elem_of_map_to_list. exact Hin. }
    destruct (treeWithin_present _ _ _ Hsub0) as [y Hy].
    destruct (samePaths_Handler _ _ sub0 y Hsame Hy) as (y1 & Hy1 & _).
    unfold s2. simpl. apply lookup_insert_is_Some.
    destruct (decide (cmd = sub0)); [now left|right]. split; [assumption|]. now exists y1. }
  rewrite (bind_Ok _ _ _ _ _ Hloop) in Hrun.
  destruct (Hafter sub x1 Hx2) as (x3 & Hx3 & Hh3 & _).
  assert (In sub (map snd (map_to_list (commands c)))) as Hmember.
  { apply in_map_iff. exists (k, sub). split; [reflexivity|].
    apply list_elem_of_In, elem_of_map_to_list. exact Hk. }
  specialize (Hh3 Hmember).
  destruct (Hafter cmd _ Hc2) as (c3 & Hc3 & _).
  rewrite (bind_Ok _ _ _ _ _ (registerCommandWithAlias_closed_form cmd c3 s3 Hc3)) in Hrun.
  rewrite logger_run in Hrun. unfold ret in Hrun. injection Hrun as <-.
  exists x3. split; [exact Hx3|]. now rewrite Hh3, Hh1.
Qed.

End TreeProperties.

(** ** The further scenarios *)

Lemma Command_AddCommand_then_Find_witness :
  exists st' x',
    Command_AddCommand 0 [1] objects = (Ok tt, st') /\
    heap st' !! 1 = Some x' /\
    Parent x' = Some 0 /\
    Command_Find (Some 0) ["ban"; "userX"] st' = Command_Find (Some 1) ["userX"] st'.
Proof.
  destruct (Command_AddCommand_then_Find 0 1 objects
              (newCommand "admin" [] (say "admin")) (newCommand "ban" ["b"] (say "ban"))
              eq_refl eq_refl)
    as (st' & oc' & x' & Hrun & Hc & Hx & Hparent & Hname & _).
  exists st', x'. repeat split; try assumption. exact (Hname ["userX"]).
Defined.

Lemma Command_AddCommand_closedHeap_witness :
  exists st', Command_AddCommand 0 [1; 2] objects = (Ok tt, st') /\ closedHeap (heap st').
Proof.
  destruct (Command_AddCommand_closedHeap 0 [1; 2] objects) as (st' & Hrun & Hclosed & _).
  - apply closedHeapb_spec. vm_compute. reflexivity.
  - eexists. vm_compute. reflexivity.
  - repeat constructor; eexists; vm_compute; reflexivity.
  - exists st'. now split.
Defined.

Lemma Command_Find_closedHeap_witness :
  exists (b : addr) (remaining : list string),
    fst (Command_Find (Some 0) ["b"; "userX"; "now"] adminBan) = Ok (Some b, remaining).
Proof.
  destruct (Command_Find_closedHeap ["b"; "userX"; "now"] 0 adminBan)
    as (b & cb & consumed & remaining & Hrun & _).
  - apply closedHeapb_spec. vm_compute. reflexivity.
  - eexists. vm_compute. reflexivity.
  - exists b, remaining. exact (f_equal fst Hrun).
Defined.

Lemma CommandRegistry_Register_wellFormed_witness :
  wellFormed (snd (CommandRegistry_Register 2 0 [pass "auth"] adminBan)).
Proof.
  apply CommandRegistry_Register_wellFormed.
  apply wellFormedb_spec. vm_compute. reflexivity.
Defined.

Lemma CommandRegistry_Register_index_witness :
  registry beforeTakeover !! "admin" = Some 0 /\
  registry (snd (CommandRegistry_Register 1 1 [] beforeTakeover)) !! "admin" = Some 1.
Proof.
  split; [vm_compute; reflexivity|].
  destruct (CommandRegistry_Register_index 1 1 1 []
              (newCommand "sudo" ["admin"; "su"] (say "sudo")) beforeTakeover
              (snd (CommandRegistry_Register 1 1 [] beforeTakeover)))
    as (_ & Hin & _).
  - vm_compute. reflexivity.
  - vm_compute. reflexivity.
  - vm_compute. reflexivity.
  - apply Hin. right. now left.
Defined.

Lemma CommandRegistry_Register_then_Find_witness :
  exists (b : addr) (remaining : list string),
    fst (CommandRegistry_Find ["b"; "userX"]
           (snd (CommandRegistry_Register 1 1 [] objects))) = Ok (Some b, remaining).
Proof.
  destruct (CommandRegistry_Register_then_Find 1 1 1 []
              (newCommand "ban" ["b"] (say "ban")) objects
              (snd (CommandRegistry_Register 1 1 [] objects)) "b" ["userX"])
    as (b & remaining & Hfind & _).
  - apply wellFormedb_spec. vm_compute. reflexivity.
  - vm_compute. reflexivity.
  - vm_compute. reflexivity.
  - vm_compute. reflexivity.
  - right. now left.
  - now exists b, remaining.
Defined.

Lemma EventProcessor_Process_safe_witness :
  match fst (EventProcessor_Process false (textEvent "/admin b userX")
               (adminBanRegistered [pass "auth"])) with
  | Ok _ => True
  | Panic PanicNilFunc => True
  | Panic (PanicInHandler _) => True
  | _ => False
  end.
Proof.
  apply (EventProcessor_Process_safe false (textEvent "/admin b userX") "/admin b userX").
  - vm_compute. reflexivity.
  - apply wellFormedb_spec. vm_compute. reflexivity.
Defined.

Lemma handlersReturn_served : handlersReturn (heap served).
Proof.
  intros a c Ha. unfold served in Ha. simpl in Ha.
  destruct (decide (a = 0)) as [->|Hne].
  - rewrite lookup_insert_eq in Ha. injection Ha as <-.
    eexists. split; [reflexivity|]. intros ctx args w. now eexists _, _, _.
  - rewrite lookup_insert_ne in Ha by congruence. rewrite lookup_empty in Ha. discriminate.
Defined.

Lemma EventProcessor_Process_returns_witness :
  exists resp st',
    EventProcessor_Process false (textEvent "/ping now") served = (Ok resp, st').
Proof.
  apply (EventProcessor_Process_returns false (textEvent "/ping now") "/ping now").
  - vm_compute. reflexivity.
  - apply wellFormedb_spec. vm_compute. reflexivity.
  - exact handlersReturn_served.
Defined.

Lemma CommandRegistry_Register_self_child_witness :
  (forall p, fst (CommandRegistry_Register 100 0 [] selfChild) <> Ok p) /\
  fst (Command_SetFullPath 100 0 selfChild) <> Ok tt.
Proof.
  apply (CommandRegistry_Register_self_child 100 0 []
           (mkCommand "loop" (Some 0) "" [] "" "" (say "loop") {[ "loop" := 0 ]} ∅) "loop").
  - vm_compute. reflexivity.
  - vm_compute. reflexivity.
  - vm_compute. reflexivity.
Defined.

Lemma CommandRegistry_Register_wraps_children_witness :
  exists st' x',
    CommandRegistry_Register 3 0 [deny "auth"] adminUserBan = (Ok 0, st') /\
    heap st' !! 2 = Some x' /\
    Handler x' = deny "auth" (say "user").
Proof.
  destruct (CommandRegistry_Register_wraps_children 3 0 [deny "auth"]
              (mkCommand "admin" None "" [] "" "" (say "admin") {[ "user" := 2 ]} ∅)
              adminUserBan)
    as (st' & Hrun & Hchildren).
  - vm_compute. reflexivity.
  - vm_compute. reflexivity.
  - vm_compute. reflexivity.
  - vm_compute. repeat constructor. intros H. inversion H.
  - destruct (Hchildren "user" 2
                (mkCommand "user" (Some 0) "" [] "" "" (say "user") {[ "ban" := 1 ]}
                           {[ "b" := "ban" ]}))
      as (x' & Hx' & Hh).
    + vm_compute. reflexivity.
    + vm_compute. reflexivity.
    + exists st', x'. now repeat split.
Defined.

(** ** One event through the engine *)

Section EngineProperties.

Context {World : Type}.
Implicit Types (st : @State World) (es : @EngineState World) (pm : @PluginManager World).

Lemma Process_not_a_command (ctx : bool) (e : Event) (text : string) st :
  dataLookup e "text" = AnyString text ->
  ParseCommand text = [] ->
  EventProcessor_Process ctx e st =
    (Ok (mkResponse ResponseTypeNotHandled AnyNil None),
     set_logs (logs st ++ [(LevelDebug, "[engine] try to parse command");
                           (LevelInfo, "[engine] not a command, not handled")]) st).
Proof.
  intros Htext Hparse. unfold EventProcessor_Process.
  rewrite logger_run, Htext.
  change (bind (assertString (AnyString text)) ?k ?s) with (k text s). cbn beta.
  rewrite Hparse. cbn [length Nat.eqb]. rewrite logger_run.
  unfold ret, set_logs. simpl. now rewrite <- app_assoc.
Qed.

(** X14.  A text that is not a command is not dropped by the engine: for an
    event whose text yields no tokens, [processEvent] puts the
    [not_handled] response on the response channel when that channel is open
    and has room, so the response goes on to the dispatcher; the event, as
    it came in, goes into the pool. *)
Theorem processEvent_forwards_not_handled (ctx : bool) (e : Event) (text : string) es :
  dataLookup e "text" = AnyString text ->
  ParseCommand text = [] ->
  chan_closed (eng_responseChan es) = false ->
  length (chan_buf (eng_responseChan es)) < chan_cap (eng_responseChan es) ->
  exists st',
    processEvent ctx e es =
      (TaskReturns,
       mkEngineState st'
         (mkChan (chan_buf (eng_responseChan es) ++ [mkResponse "not_handled" AnyNil None])
                 (chan_cap (eng_responseChan es)) false)
         (e :: eng_eventPool es)).
Proof.
  intros Htext Hparse Hopen Hroom. eexists. unfold processEvent.
  rewrite (Process_not_a_command ctx e text _ Htext Hparse).
  cbn [Response_Type ResponseTypeNotHandled]. unfold send. rewrite Hopen.
  apply Nat.ltb_lt in Hroom. rewrite Hroom. reflexivity.
Qed.

(** X15.  Once the response channel is closed, as [cleanup] closes it before
    it stops the worker pool, [processEvent] panics with a send on a closed
    channel for every event whose text yields no tokens; the deferred call
    still puts the event into the pool. *)
Theorem processEvent_after_close (ctx : bool) (e : Event) (text : string) es :
  dataLookup e "text" = AnyString text ->
  ParseCommand text = [] ->
  chan_closed (eng_responseChan es) = true ->
  exists st',
    processEvent ctx e es =
      (TaskPanics PanicSendOnClosedChannel,
       mkEngineState st' (eng_responseChan es) (e :: eng_eventPool es)).
Proof.
  intros Htext Hparse Hclosed. eexists. unfold processEvent.
  rewrite (Process_not_a_command ctx e text _ Htext Hparse).
  cbn [Response_Type ResponseTypeNotHandled]. unfold send. rewrite Hclosed. reflexivity.
Qed.

(** ** Plugins *)

Lemma PluginManager_Register_known (plugin : Plugin) mws pm :
  Plugin_Name plugin ∈ dom (plugins pm) ->
  PluginManager_Register plugin mws pm = (Ok tt, pm).
Proof.
  intros Hin. apply elem_of_dom in Hin as [p Hp].
  unfold PluginManager_Register. now rewrite Hp.
Qed.

Lemma PluginManager_Register_new (plugin : Plugin) mws pm :
  Plugin_Name plugin ∉ dom (plugins pm) ->
  dom (plugins (snd (PluginManager_Register plugin mws pm))) =
    {[Plugin_Name plugin]} ∪ dom (plugins pm).
Proof.
  intros Hnot. apply not_elem_of_dom in Hnot.
  unfold PluginManager_Register. rewrite Hnot. simpl.
  destruct (Plugin_RegisterCommand plugin mws _) as [result st2]. simpl.
  apply dom_insert_L.
Qed.

(** X16.  A plugin name is served once: a sequence of [RegisterPlugin] calls
    does what the sequence does from which every call is struck whose plugin
    name was taken before, by the manager as it stood or by an earlier call of
    the sequence.  The [RegisterCommand] of a struck call never runs and its
    middlewares are never used. *)
Theorem Engine_RegisterPlugins_effective
    (calls : list (@Plugin World * list (@Middleware World))) :
  forall pm,
    Engine_RegisterPlugins calls pm =
      Engine_RegisterPlugins (effectiveCalls (dom (plugins pm)) calls) pm.
Proof.
  induction calls as [|[plugin mws] rest IH]; intros pm; [reflexivity|].
  cbn [effectiveCalls]. destruct (decide (Plugin_Name plugin ∈ dom (plugins pm))) as [Hin|Hnot].
  - cbn [Engine_RegisterPlugins].
    rewrite (PluginManager_Register_known plugin mws pm Hin). apply IH.
  - cbn [Engine_RegisterPlugins].
    pose proof (PluginManager_Register_new plugin mws pm Hnot) as Hdom.
    destruct (PluginManager_Register plugin mws pm) as [[[]| |] pm']; try reflexivity.
    simpl in Hdom. rewrite <- Hdom. apply IH.
Qed.

End EngineProperties.

(** ** Constructing the engine *)

(** X17.  The engine is a singleton: once a call of [NewEngine] has returned
    an engine, every later call returns that engine and leaves the package
    variables alone, whatever options it is given; so does [GetEngine]. *)
Theorem NewEngine_singleton (opts1 opts2 : list EngineOption) (g g1 : Globals) (e : Engine) :
  NewEngine opts1 g = (Some (Some e), g1) ->
  NewEngine opts2 g1 = (Some (Some e), g1) /\ GetEngine g1 = Some e.
Proof.
  unfold NewEngine, GetEngine. destruct (once g) eqn:Honce.
  - intros [= He <-]. now rewrite Honce, He.
  - destruct (buildEngine opts1) as [e1|]; [|discriminate].
    intros [= <- <-]. now split.
Qed.

Lemma fold_options_app (opts1 opts2 : list EngineOption) (c : EngineConfig) :
  fold_left (fun c (opt : EngineOption) => opt c) (opts1 ++ opts2) c =
  fold_left (fun c (opt : EngineOption) => opt c) opts2
            (fold_left (fun c (opt : EngineOption) => opt c) opts1 c).
Proof. apply fold_left_app. Qed.

(** X18.  A negative channel size poisons the singleton: a first [NewEngine]
    whose last option sets the size of the event channel below zero panics,
    and every later [NewEngine], whatever its options, returns nil. *)
Theorem NewEngine_negative_size (opts opts2 : list EngineOption) (size : Z) :
  (size < 0)%Z ->
  exists g1,
    NewEngine (opts ++ [WithEventChanSize size]) initialGlobals = (None, g1) /\
    NewEngine opts2 g1 = (Some None, g1) /\
    GetEngine g1 = None.
Proof.
  intros Hsize. eexists. unfold NewEngine at 1. simpl once.
  assert (buildEngine (opts ++ [WithEventChanSize size]) = None) as ->.
  { unfold buildEngine. rewrite fold_options_app. simpl.
    apply Z.ltb_lt in Hsize. now rewrite Hsize. }
  split; [reflexivity|]. now split.
Qed.

(** ** More on the worker pool *)

Lemma ChanInv_New (n : nat) : ChanInv (NewWorkerPool n).
Proof.
  unfold ChanInv, NewWorkerPool, taskChanCap. simpl. split; [lia|]. split.
  - now exists [].
  - split; [discriminate|]. intros [H|H]; discriminate.
Qed.

Lemma ChanInv_step (a : Action) (p p' : WorkerPool) :
  ChanInv p -> step a p = Some p' -> ChanInv p'.
Proof.
  intros (Hcap & [taken Htaken] & Hclosed) Hstep.
  destruct a as [|t|i|i|i|i| |]; simpl in Hstep.
  - destruct (caller p) eqn:Hcaller; try discriminate.
    injection Hstep as <-. unfold ChanInv. simpl.
    split; [exact Hcap|]. split; [now exists taken|].
    split.
    + intros H. apply Hclosed in H as [H|H]; discriminate.
    + intros [H|H]; discriminate.
  - destruct (closed p) eqn:Hc; [discriminate|].
    destruct (Nat.ltb _ _) eqn:Hlt; [|discriminate].
    injection Hstep as <-. unfold ChanInv. simpl.
    apply Nat.ltb_lt in Hlt. rewrite length_app. simpl.
    split; [lia|]. split; [|exact Hclosed].
    exists taken. now rewrite Htaken, app_assoc.
  - destruct (goroutines p !! i) as [[| | |]|]; try discriminate.
    destruct (taskChan p) as [|t q] eqn:Hq; [discriminate|].
    injection Hstep as <-. unfold ChanInv. simpl. simpl in Hcap.
    split; [lia|]. split; [|exact Hclosed].
    exists (taken ++ [t]). now rewrite Htaken, <- app_assoc.
  - destruct (goroutines p !! i) as [[|t| |]|]; try discriminate.
    injection Hstep as <-. unfold ChanInv. simpl.
    split; [exact Hcap|]. split; [now exists taken|exact Hclosed].
  - destruct (goroutines p !! i) as [[| | |]|]; try discriminate.
    destruct (taskChan p) as [|t q] eqn:Hq; [|discriminate].
    destruct (closed p) eqn:Hc; [|discriminate].
    injection Hstep as <-. unfold ChanInv, set_worker. simpl. rewrite ?Hq, ?Hc.
    split; [simpl; lia|]. split; [|exact Hclosed].
    exists taken. now rewrite Htaken.
  - destruct (goroutines p !! i) as [[| | |]|]; try discriminate.
    destruct (wg p); [discriminate|].
    injection Hstep as <-. unfold ChanInv. simpl.
    split; [exact Hcap|]. split; [now exists taken|exact Hclosed].
  - destruct (caller p) eqn:Hcaller; try discriminate.
    injection Hstep as <-. unfold ChanInv. simpl.
    split; [exact Hcap|]. split; [now exists taken|].
    split; [now left|reflexivity].
  - destruct (caller p) eqn:Hcaller; try discriminate.
    destruct (wg p); [|discriminate].
    injection Hstep as <-. unfold ChanInv. simpl.
    split; [exact Hcap|]. split; [now exists taken|].
    split; [now right|]. intros _. apply Hclosed. now left.
Qed.

Lemma ChanInv_run (schedule : list Action) :
  forall p p', ChanInv p -> run schedule p = Some p' -> ChanInv p'.
Proof.
  induction schedule as [|a rest IH]; intros p p' Hinv Hrun; simpl in Hrun.
  - now injection Hrun as <-.
  - destruct (step a p) as [p1|] eqn:Hstep; [|discriminate].
    eapply IH; [|exact Hrun]. eapply ChanInv_step; eassumption.
Qed.

Lemma running_length (ws : list Worker) : length (running ws) <= length ws.
Proof.
  induction ws as [|w ws IH]; [reflexivity|].
  change (w :: ws) with ([w] ++ ws). rewrite running_app, !length_app.
  destruct w; simpl; lia.
Qed.

(** X19.  No task is lost or made up, at any moment: in every run of the
    pool the tasks submitted so far are exactly the tasks completed, the
    tasks being run and the tasks waiting in the channel. *)
Theorem WorkerPool_conservation (n : nat) (schedule : list Action) (p : WorkerPool) :
  run schedule (NewWorkerPool n) = Some p ->
  submitted p ≡ₚ completed p ++ running (goroutines p) ++ taskChan p.
Proof.
  intros Hrun.
  now destruct (PoolInv_run n schedule _ _ (PoolInv_New n) Hrun) as (_ & Hperm & _).
Qed.

(** X20.  The pool keeps within its bounds at every moment: at most [n]
    tasks are being run at once, and at most 1000 are waiting in the
    channel. *)
Theorem WorkerPool_bounds (n : nat) (schedule : list Action) (p : WorkerPool) :
  run schedule (NewWorkerPool n) = Some p ->
  length (running (goroutines p)) <= n /\ length (taskChan p) <= 1000.
Proof.
  intros Hrun.
  destruct (PoolInv_run n schedule _ _ (PoolInv_New n) Hrun)
    as (_ & _ & _ & Hcreated & Hlen & _).
  destruct (ChanInv_run schedule _ _ (ChanInv_New n) Hrun) as (Hcap & _).
  split; [|exact Hcap].
  pose proof (running_length (goroutines p)) as Hr.
  destruct (caller p) eqn:Hcaller.
  - rewrite (Hcreated eq_refl). simpl. lia.
  - rewrite Hlen in Hr by discriminate. exact Hr.
  - rewrite Hlen in Hr by discriminate. exact Hr.
  - rewrite Hlen in Hr by discriminate. exact Hr.
Qed.

(** X21.  Tasks leave the channel in the order in which they were
    submitted: at every moment the content of the channel is the tail of the
    sequence of submissions, and the tasks before it are the ones completed
    or being run. *)
Theorem WorkerPool_fifo (n : nat) (schedule : list Action) (p : WorkerPool) :
  run schedule (NewWorkerPool n) = Some p ->
  exists taken,
    submitted p = taken ++ taskChan p /\
    taken ≡ₚ completed p ++ running (goroutines p).
Proof.
  intros Hrun.
  destruct (PoolInv_run n schedule _ _ (PoolInv_New n) Hrun) as (_ & Hperm & _).
  destruct (ChanInv_run schedule _ _ (ChanInv_New n) Hrun) as (_ & [taken Htaken] & _).
  exists taken. split; [exact Htaken|].
  rewrite Htaken, app_assoc in Hperm.
  now apply Permutation_app_inv_r in Hperm.
Qed.

(** X22.  Once [Stop] has been called the pool takes no more work: in every
    state of every run in which the owner is inside or past [Stop], no
    [Submit] is enabled (the send would panic on the closed channel). *)
Theorem WorkerPool_no_Submit_after_Stop
    (n : nat) (schedule : list Action) (p : WorkerPool) (t : Task) :
  run schedule (NewWorkerPool n) = Some p ->
  caller p = Waiting \/ caller p = Stopped ->
  step (ActSubmit t) p = None.
Proof.
  intros Hrun Hcaller.
  destruct (ChanInv_run schedule _ _ (ChanInv_New n) Hrun) as (_ & _ & Hclosed).
  simpl. now rewrite (proj2 Hclosed Hcaller).
Qed.

(** ** Shutting the pool down *)

Lemma worker_cases (ws : list Worker) :
  (exists i t, ws !! i = Some (Running t)) \/
  (exists i, ws !! i = Some Receiving) \/
  (exists i, ws !! i = Some Leaving) \/
  live ws = 0.
Proof.
  induction ws as [|w ws IH]; [now right; right; right|].
  destruct w as [|t| |].
  - right. left. now exists 0.
  - left. now exists 0, t.
  - right. right. left. now exists 0.
  - destruct IH as [(i & t & H)|[(i & H)|[(i & H)|H]]].
    + left. now exists (S i), t.
    + right. left. now exists (S i).
    + right. right. left. now exists (S i).
    + right. right. right. exact H.
Qed.

Lemma weight_update (ws : list Worker) (i : nat) (w w' : Worker) :
  ws !! i = Some w ->
  list_sum (map workerWeight (<[i := w']> ws)) + workerWeight w =
  list_sum (map workerWeight ws) + workerWeight w'.
Proof.
  intros H. destruct (worker_update ws i w w' H) as (l1 & l2 & -> & ->).
  rewrite !map_app, !list_sum_app. simpl. lia.
Qed.

Lemma live_positive (ws : list Worker) (i : nat) (w : Worker) :
  ws !! i = Some w -> isLive w = true -> 1 <= live ws.
Proof.
  intros H Hw. destruct (worker_update ws i w w H) as (l1 & l2 & -> & _).
  rewrite live_app. unfold live at 2. simpl. rewrite Hw. simpl. lia.
Qed.

(** From a pool on which [Stop] is waiting, the workers can always finish:
    some schedule of their actions leads to the return of [Stop]. *)
Lemma WorkerPool_drains (n : nat) (m : nat) :
  forall p,
    PoolInv n p -> ChanInv p -> caller p = Waiting -> workLeft p = m ->
    exists rest p', run rest p = Some p' /\ caller p' = Stopped.
Proof.
  induction m as [m IH] using lt_wf_ind. intros p Hinv Hchan Hcaller Hm.
  assert (forall a p1,
            step a p = Some p1 -> caller p1 = Waiting -> workLeft p1 < workLeft p ->
            exists rest p', run rest p = Some p' /\ caller p' = Stopped) as Hnext.
  { intros a p1 Hstep Hc1 Hlt.
    destruct (IH (workLeft p1) ltac:(lia) p1) as (rest & p' & Hrun & Hstop);
      [eapply PoolInv_step; eassumption|eapply ChanInv_step; eassumption|exact Hc1|reflexivity|].
    exists (a :: rest), p'. split; [|exact Hstop]. simpl. now rewrite Hstep. }
  pose proof Hinv as (_ & _ & Hwg & _).
  pose proof Hchan as (_ & _ & Hclosed).
  destruct (worker_cases (goroutines p)) as [(i & t & Hi)|[(i & Hi)|[(i & Hi)|Hlive]]].
  - pose proof (weight_update _ i _ Receiving Hi) as Hw. simpl in Hw.
    eapply (Hnext (ActFinish i)).
    + simpl. rewrite Hi. reflexivity.
    + exact Hcaller.
    + unfold workLeft. simpl. lia.
  - destruct (taskChan p) as [|t q] eqn:Hq.
    + pose proof (weight_update _ i _ Leaving Hi) as Hw. simpl in Hw.
      eapply (Hnext (ActDrained i)).
      * simpl. rewrite Hi, Hq. rewrite (proj2 Hclosed (or_introl Hcaller)). reflexivity.
      * exact Hcaller.
      * unfold workLeft, set_worker. simpl. rewrite Hq. simpl. lia.
    + pose proof (weight_update _ i _ (Running t) Hi) as Hw. simpl in Hw.
      eapply (Hnext (ActReceive i)).
      * simpl. rewrite Hi, Hq. reflexivity.
      * exact Hcaller.
      * unfold workLeft. simpl. rewrite Hq. simpl. lia.
  - pose proof (weight_update _ i _ Exited Hi) as Hw. simpl in Hw.
    pose proof (live_positive _ i _ Hi eq_refl) as Hpos.
    destruct (wg p) as [|k] eqn:Hk; [lia|].
    eapply (Hnext (ActDone i)).
    + simpl. rewrite Hi, Hk. reflexivity.
    + exact Hcaller.
    + unfold workLeft. simpl. lia.
  - exists [ActStopReturn]. eexists. simpl. rewrite Hcaller, Hwg, Hlive.
    split; reflexivity.
Qed.

(** X23.  The pool can always be shut down: from every state of every run
    some schedule (start if need be, then [Stop], then the workers finishing
    what is running and what is waiting) leads to [Stop] having returned.
    No interleaving brings the pool into a state from which [Stop] cannot
    return, as long as the tasks themselves return. *)
Theorem WorkerPool_Stop_can_return (n : nat) (schedule : list Action) (p : WorkerPool) :
  run schedule (NewWorkerPool n) = Some p ->
  exists rest p', run rest p = Some p' /\ caller p' = Stopped.
Proof.
  intros Hrun.
  pose proof (PoolInv_run n schedule _ _ (PoolInv_New n) Hrun) as Hinv.
  pose proof (ChanInv_run schedule _ _ (ChanInv_New n) Hrun) as Hchan.
  assert (forall q, PoolInv n q -> ChanInv q -> caller q = Started ->
                    exists rest p', run rest q = Some p' /\ caller p' = Stopped) as Hstarted.
  { intros q Hq1 Hq2 Hc.
    assert (exists q1, step ActStopClose q = Some q1 /\ caller q1 = Waiting) as (q1 & Hs & Hc1).
    { simpl. rewrite Hc. eexists. split; reflexivity. }
    destruct (WorkerPool_drains n (workLeft q1) q1) as (rest & p' & Hr & Hstop);
      [eapply PoolInv_step; eassumption|eapply ChanInv_step; eassumption
      |exact Hc1|reflexivity|].
    exists (ActStopClose :: rest), p'. split; [|exact Hstop]. simpl in *. now rewrite Hs. }
  destruct (caller p) eqn:Hcaller.
  - assert (exists q, step ActStart p = Some q /\ caller q = Started) as (q & Hs & Hc).
    { simpl. rewrite Hcaller. eexists. split; reflexivity. }
    destruct (Hstarted q) as (rest & p' & Hr & Hstop);
      [eapply PoolInv_step; eassumption|eapply ChanInv_step; eassumption|exact Hc|].
    exists (ActStart :: rest), p'. split; [|exact Hstop]. simpl in *. now rewrite Hs.
  - now apply Hstarted.
  - now apply (WorkerPool_drains n (workLeft p)).
  - exists [], p. now split.
Qed.

(** ** Runs of the pool *)

Lemma WorkerPool_conservation_witness :
  exists p,
    run [ActStart; ActSubmit 10; ActSubmit 11; ActReceive 0] (NewWorkerPool 2) = Some p /\
    submitted p ≡ₚ completed p ++ running (goroutines p) ++ taskChan p.
Proof.
  eexists. split; [vm_compute; reflexivity|].
  apply (WorkerPool_conservation 2 [ActStart; ActSubmit 10; ActSubmit 11; ActReceive 0]).
  reflexivity.
Defined.

Lemma WorkerPool_bounds_witness :
  exists p,
    run [ActStart; ActSubmit 10; ActSubmit 11; ActReceive 0] (NewWorkerPool 2) = Some p /\
    length (running (goroutines p)) <= 2 /\ length (taskChan p) <= 1000.
Proof.
  eexists. split; [vm_compute; reflexivity|].
  apply (WorkerPool_bounds 2 [ActStart; ActSubmit 10; ActSubmit 11; ActReceive 0]).
  reflexivity.
Defined.

Lemma WorkerPool_fifo_witness :
  exists p taken,
    run [ActStart; ActSubmit 10; ActSubmit 11; ActReceive 0] (NewWorkerPool 2) = Some p /\
    submitted p = taken ++ taskChan p.
Proof.
  destruct (WorkerPool_fifo 2 [ActStart; ActSubmit 10; ActSubmit 11; ActReceive 0]
              (mkPool 2 [11] false 2 [Running 10; Receiving] Started [10; 11] []) eq_refl)
    as (taken & Htaken & _).
  eexists. exists taken. split; [reflexivity|exact Htaken].
Defined.

Lemma WorkerPool_no_Submit_after_Stop_witness :
  step (ActSubmit 12)
       (mkPool 2 [11] true 2 [Running 10; Receiving] Waiting [10; 11] []) = None.
Proof.
  apply (WorkerPool_no_Submit_after_Stop 2
           [ActStart; ActSubmit 10; ActSubmit 11; ActReceive 0; ActStopClose]).
  - reflexivity.
  - now left.
Defined.

Lemma WorkerPool_Stop_can_return_witness :
  exists rest p',
    run rest (mkPool 2 [11] false 2 [Running 10; Receiving] Started [10; 11] []) = Some p' /\
    caller p' = Stopped.
Proof.
  apply (WorkerPool_Stop_can_return 2 [ActStart; ActSubmit 10; ActSubmit 11; ActReceive 0]).
  reflexivity.
Defined.

(** ** The engine scenarios *)

Lemma processEvent_forwards_not_handled_witness :
  exists st',
    processEvent false (textEvent "hello")
      (mkEngineState (freshState tt) (mkChan [] 1000 false) []) =
    (TaskReturns,
     mkEngineState st' (mkChan [mkResponse "not_handled" AnyNil None] 1000 false)
                   [textEvent "hello"]).
Proof.
  apply (processEvent_forwards_not_handled false (textEvent "hello") "hello"
           (mkEngineState (freshState tt) (mkChan [] 1000 false) [])).
  - reflexivity.
  - reflexivity.
  - reflexivity.
  - simpl. lia.
Defined.

Lemma processEvent_after_close_witness :
  exists st',
    processEvent false (textEvent "hello")
      (mkEngineState (freshState tt) (mkChan [] 1000 true) []) =
    (TaskPanics PanicSendOnClosedChannel,
     mkEngineState st' (mkChan [] 1000 true) [textEvent "hello"]).
Proof.
  apply (processEvent_after_close false (textEvent "hello") "hello"
           (mkEngineState (freshState tt) (mkChan [] 1000 true) [])).
  - reflexivity.
  - reflexivity.
  - reflexivity.
Defined.

Lemma NewEngine_singleton_witness :
  NewEngine [WithWorkerPoolSize 8; WithEventChanSize 1]
            (snd (NewEngine [WithWorkerPoolSize 4] initialGlobals)) =
    (Some (Some (mkEngine defaultLogger 1000 1000 4)),
     mkGlobals (Some (mkEngine defaultLogger 1000 1000 4)) true).
Proof.
  apply (NewEngine_singleton [WithWorkerPoolSize 4] [WithWorkerPoolSize 8; WithEventChanSize 1]
           initialGlobals).
  reflexivity.
Defined.

Lemma NewEngine_negative_size_witness :
  exists g1,
    NewEngine [WithWorkerPoolSize 4; WithEventChanSize (-1)] initialGlobals = (None, g1) /\
    NewEngine [] g1 = (Some None, g1) /\
    GetEngine g1 = None.
Proof.
  apply (NewEngine_negative_size [WithWorkerPoolSize 4] [] (-1)). lia.
Defined.

(** ** The derived paths *)

Section PathProperties.

Context {World : Type}.
Implicit Types (st : @State World) (c ca x : @Command World).
Implicit Types (h : gmap addr (@Command World)).

Lemma nodes_erased h h' :
  erasePath <$> h = erasePath <$> h' ->
  forall depth a, nodes h depth a = nodes h' depth a.
Proof.
  intros Heq. induction depth as [|d IH]; intros a; simpl; [reflexivity|].
  pose proof (erased_lookup h h' a Heq) as Ha.
  destruct (h !! a) as [c|], (h' !! a) as [c'|]; simpl in Ha; try discriminate;
    [|reflexivity].
  apply (inj Some) in Ha. apply erasePath_fields in Ha as (_ & _ & _ & Hc & _).
  rewrite Hc. f_equal. apply flat_map_ext. intros kv. apply IH.
Qed.

Lemma node_self h (depth : nat) (a : addr) :
  treeWithin h depth a = true -> In a (nodes h depth a).
Proof.
  destruct depth; simpl; [discriminate|].
  destruct (h !! a); [now left|discriminate].
Qed.

Lemma forallb_ext_In {A} (f g : A -> bool) (l : list A) :
  (forall item, In item l -> f item = g item) -> forallb f l = forallb g l.
Proof.
  induction l as [|y l IH]; intros H; [reflexivity|].
  simpl. rewrite (H y) by now left. rewrite IH; [reflexivity|].
  intros z Hz. apply H. now right.
Qed.

(** Whether the paths below [a] are right depends on the commands of the
    subtree only. *)
Lemma pathsRight_local (depth : nat) :
  forall (a : addr) h h',
    treeWithin h depth a = true ->
    (forall b, In b (nodes h depth a) -> h' !! b = h !! b) ->
    pathsRight h' depth a = pathsRight h depth a.
Proof.
  induction depth as [|d IH]; intros a h h' Ht Hsame; [reflexivity|].
  destruct (treeWithin_present _ _ _ Ht) as [c Hc].
  simpl. rewrite (Hsame a (node_self _ _ _ Ht)), Hc.
  apply forallb_ext_In. intros kv Hkv.
  pose proof (treeWithin_children _ _ _ _ Ht Hc kv Hkv) as Hsub.
  assert (forall b, In b (nodes h d (snd kv)) -> In b (nodes h (S d) a)) as Hin.
  { intros b Hb. simpl. rewrite Hc. right. apply in_flat_map. now exists kv. }
  rewrite (Hsame (snd kv)) by (apply Hin; now apply node_self).
  destruct (h !! snd kv); [|reflexivity].
  rewrite (IH (snd kv) h h' Hsub); [reflexivity|].
  intros b Hb. apply Hsame. now apply Hin.
Qed.

Lemma path_nonempty (P n : string) : String.eqb (P +:+ " " +:+ n) "" = false.
Proof. now destruct P. Qed.

(** On a tree without sharing, of depth at most [fuel]: [SetFullPath]
    returns; the receiver keeps the path it had, or gets its name if it had
    none; below it the paths are right; and no command outside the subtree
    is touched. *)
Lemma SetFullPath_paths (fuel : nat) :
  forall (a : addr) st c,
    treeWithin (heap st) fuel a = true ->
    NoDup (nodes (heap st) fuel a) ->
    heap st !! a = Some c ->
    exists st' c',
      Command_SetFullPath fuel a st = (Ok tt, st') /\
      samePaths st st' /\
      heap st' !! a = Some c' /\
      fullPath c' = (if String.eqb (fullPath c) "" then Name c else fullPath c) /\
      Name c' = Name c /\
      pathsRight (heap st') fuel a = true /\
      (forall b, ~ In b (nodes (heap st) fuel a) -> heap st' !! b = heap st !! b).
Proof.
  induction fuel as [|d IH]; intros a st c Ht Hnodup Hc; [discriminate|].
  cbn [Command_SetFullPath].
  rewrite (bind_Ok _ _ _ _ _ (deref_Some _ _ _ Hc)).
  set (P := if String.eqb (fullPath c) "" then Name c else fullPath c).
  set (first := if String.eqb (fullPath c) "" then store a (set_fullPath (Name c) c)
                else ret tt).
  assert (exists st1 c1, first st = (Ok tt, st1) /\ samePaths st st1 /\
                         heap st1 !! a = Some c1 /\ fullPath c1 = P /\ Name c1 = Name c /\
                         (forall b, b <> a -> heap st1 !! b = heap st !! b))
    as (st1 & c1 & Hfirst & Hst1 & Hc1 & HP & Hn1 & Hother1).
  { unfold first, P. destruct (String.eqb (fullPath c) "").
    - eexists. exists (set_fullPath (Name c) c). split; [reflexivity|].
      split; [now apply samePaths_store|]. split; [apply lookup_insert_eq|].
      repeat split. intros b Hb. simpl. now rewrite lookup_insert_ne by congruence.
    - exists st, c. split; [reflexivity|]. split; [apply samePaths_refl|]. now repeat split. }
  rewrite (bind_Ok _ _ _ _ _ Hfirst).
  simpl in Hnodup. rewrite Hc in Hnodup.
  apply NoDup_cons in Hnodup as [Hroot Hnodup]. rewrite list_elem_of_In in Hroot.
  match goal with |- context [forEach ?l ?b] => set (body := b) end.
  assert (forall l' s ca,
            samePaths st s ->
            heap s !! a = Some ca ->
            (forall kv, In kv l' -> treeWithin (heap st) d (snd kv) = true) ->
            NoDup (flat_map (fun kv => nodes (heap st) d (snd kv)) l') ->
            ~ In a (flat_map (fun kv => nodes (heap st) d (snd kv)) l') ->
            exists s',
              forEach l' body s = (Ok tt, s') /\
              samePaths st s' /\
              (forall b, ~ In b (flat_map (fun kv => nodes (heap st) d (snd kv)) l') ->
                         heap s' !! b = heap s !! b) /\
              (forall kv, In kv l' ->
                 exists cs, heap s' !! snd kv = Some cs /\
                            fullPath cs = fullPath ca +:+ " " +:+ Name cs /\
                            pathsRight (heap s') d (snd kv) = true)) as Hloop.
  { induction l' as [|[k sub] l'' IHl]; intros s ca Hs Hca Htrees Hnd Hnota.
    - exists s. split; [reflexivity|]. split; [exact Hs|]. split; [reflexivity|].
      intros kv [].
    - simpl in Hnd, Hnota.
      apply NoDup_app in Hnd as (Hnd1 & Hdisjoint & Hnd2).
      assert (forall b, In b (nodes (heap st) d sub) ->
                        ~ In b (flat_map (fun kv => nodes (heap st) d (snd kv)) l''))
        as Hdis.
      { intros b Hb Hb2. apply (Hdisjoint b); now apply list_elem_of_In. }
      pose proof (Htrees (k, sub) (or_introl eq_refl)) as Htsub. simpl in Htsub.
      pose proof (node_self _ _ _ Htsub) as Hself.
      destruct (treeWithin_present _ _ _ Htsub) as [x0 Hx0].
      destruct (samePaths_Handler _ _ sub x0 Hs Hx0) as (x & Hx & _).
      set (x1 := set_fullPath (fullPath ca +:+ " " +:+ Name x) x).
      set (s1 := set_heap (<[sub := x1]> (heap s)) s).
      assert (samePaths st s1) as Hs1.
      { eapply samePaths_trans; [exact Hs|]. now apply samePaths_store. }
      assert (heap s1 !! sub = Some x1) as Hx1 by apply lookup_insert_eq.
      destruct (IH sub s1 x1) as (s2 & x2 & Hrun2 & Hs12 & Hx2 & Hpath2 & Hname2 & Hright2 & Htouch2).
      { now rewrite <- (treeWithin_erased _ _ (proj1 Hs1)). }
      { now rewrite <- (nodes_erased _ _ (proj1 Hs1)). }
      { exact Hx1. }
      rewrite <- (nodes_erased _ _ (proj1 Hs1)) in Htouch2.
      assert (a <> sub) as Hasub.
      { intros ->. apply Hnota. apply in_or_app. now left. }
      assert (heap s2 !! a = Some ca) as Hca2.
      { rewrite Htouch2 by (intros H; apply Hnota; apply in_or_app; now left).
        unfold s1. simpl. rewrite lookup_insert_ne by congruence. exact Hca. }
      assert (samePaths st s2) as Hs2 by (eapply samePaths_trans; eassumption).
      destruct (IHl s2 ca Hs2 Hca2) as (s' & Hrun' & Hs' & Htouch' & Hmembers').
      { intros kv Hkv. apply Htrees. now right. }
      { exact Hnd2. }
      { intros H. apply Hnota. apply in_or_app. now right. }
      assert (body (k, sub) s = (Ok tt, s2)) as Hbody.
      { unfold body.
        rewrite (bind_Ok _ _ _ _ _ (deref_Some _ _ _ Hca)).
        rewrite (bind_Ok _ _ _ _ _ (deref_Some _ _ _ Hx)).
        unfold bind at 1. unfold store at 1. exact Hrun2. }
      exists s'. split; [cbn [forEach]; now rewrite (bind_Ok _ _ _ _ _ Hbody)|].
      split; [exact Hs'|]. split.
      + intros b Hb.
        rewrite Htouch' by (intros H; apply Hb; apply in_or_app; now right).
        rewrite Htouch2 by (intros H; apply Hb; apply in_or_app; now left).
        unfold s1. simpl. apply lookup_insert_ne.
        intros ->. apply Hb. apply in_or_app. now left.
      + intros kv [<-|Hkv]; [|now apply Hmembers'].
        simpl. exists x2. rewrite (Htouch' sub (Hdis sub Hself)).
        split; [exact Hx2|]. split.
        * rewrite Hpath2. unfold x1. simpl. rewrite path_nonempty.
          now rewrite Hname2.
        * rewrite <- Hright2. apply pathsRight_local.
          -- now rewrite <- (treeWithin_erased _ _ (proj1 Hs2)).
          -- intros b Hb. apply Htouch'. apply Hdis.
             now rewrite (nodes_erased _ _ (proj1 Hs2)). }
  destruct (Hloop (map_to_list (commands c)) st1 c1 Hst1 Hc1) as (s' & Hrun & Hs' & Htouch & Hmembers).
  { intros kv Hkv. exact (treeWithin_children _ _ _ _ Ht Hc kv Hkv). }
  { exact Hnodup. }
  { exact Hroot. }
  assert (heap s' !! a = Some c1) as Hca' by (rewrite (Htouch a Hroot); exact Hc1).
  exists s', c1. split; [exact Hrun|]. split; [exact Hs'|]. split; [exact Hca'|].
  split; [exact HP|]. split; [exact Hn1|]. split.
  - simpl. rewrite Hca'.
    assert (commands c1 = commands c) as ->.
    { destruct (samePaths_Handler _ _ a c Hst1 Hc) as (c1' & Hc1' & _ & Hcom). congruence. }
    apply forallb_forall. intros kv Hkv.
    destruct (Hmembers kv Hkv) as (cs & Hcs & Hpath & Hright).
    rewrite Hcs, Hright, Hpath. now rewrite String.eqb_refl.
  - intros b Hb. simpl in Hb. rewrite Hc in Hb.
    rewrite Htouch by (intros H; apply Hb; now right).
    apply Hother1. intros ->. apply Hb. now left.
Qed.

(** X24.  [SetFullPath] on a tree without sharing, of depth at most [fuel]:
    the call returns; the receiver keeps the path it had, or gets its name as
    path if it had none; every command below it ends up with the path of its
    parent, a blank and its own name; nothing but paths has changed, and no
    command outside the subtree has changed at all. *)
Theorem Command_SetFullPath_paths (fuel : nat) (a : addr) st c :
  treeWithin (heap st) fuel a = true ->
  NoDup (nodes (heap st) fuel a) ->
  heap st !! a = Some c ->
  exists st' c',
    Command_SetFullPath fuel a st = (Ok tt, st') /\
    samePaths st st' /\
    heap st' !! a = Some c' /\
    fullPath c' = (if String.eqb (fullPath c) "" then Name c else fullPath c) /\
    pathsRight (heap st') fuel a = true /\
    (forall b, ~ In b (nodes (heap st) fuel a) -> heap st' !! b = heap st !! b).
Proof.
  intros Ht Hnodup Hc.
  destruct (SetFullPath_paths fuel a st c Ht Hnodup Hc)
    as (st' & c' & H1 & H2 & H3 & H4 & _ & H5 & H6).
  now exists st', c'.
Qed.

(** X25.  However [SetFullPath] ends, by returning, by a panic on a dangling
    child or by running on for ever on a cycle, it has changed paths only:
    names, parents, aliases, handlers and child maps of all commands, the flat
    index, the log and the world are what they were. *)
Theorem Command_SetFullPath_changes_paths_only (fuel : nat) (a : addr) st :
  samePaths st (snd (Command_SetFullPath fuel a st)).
Proof. apply Command_SetFullPath_frame. Qed.

End PathProperties.

Lemma Command_SetFullPath_paths_witness :
  exists st' c',
    Command_SetFullPath 3 0 adminUserBan = (Ok tt, st') /\
    heap st' !! 0 = Some c' /\
    fullPath c' = "admin" /\
    pathsRight (heap st') 3 0 = true.
Proof.
  destruct (Command_SetFullPath_paths 3 0 adminUserBan
              (mkCommand "admin" None "" [] "" "" (say "admin") {[ "user" := 2 ]} ∅))
    as (st' & c' & Hrun & _ & Hc' & Hpath & Hright & _).
  - vm_compute. reflexivity.
  - apply (bool_decide_unpack _). vm_compute. exact I.
  - vm_compute. reflexivity.
  - exists st', c'. repeat split; assumption.
Defined.
